(** * MacroPad Plus firmware (software/macropad_plus.c): event dispatch loop

    A shallow embedding of the firmware's main function and of the NeoPixel
    ring helpers, and the properties of the key edge detectors, of the rotary
    encoder decoder, of the encoder switch and of the ring phase counter.

    The firmware talks to its collaborators (NeoPixel driver, USB HID, system
    functions) through calls only.  Each such call is recorded as an [event]
    of a trace, in program order.  The local [__bit] flags of [main] and the
    global [neoencoder] form the [state].  Pin levels are inputs. *)

From Stdlib Require Import ZArith List Bool Ascii Lia.
Import ListNotations.
Local Open Scope Z_scope.

(* ================================================================== *)
(** ** Inputs: pins *)

Inductive pin : Type :=
| PIN_KEY1 | PIN_KEY2 | PIN_KEY3 | PIN_KEY4 | PIN_KEY5 | PIN_KEY6
| PIN_ENC_A | PIN_ENC_B | PIN_ENC_SW.

Definition pin_eqb (p q : pin) : bool :=
  match p, q with
  | PIN_KEY1, PIN_KEY1 | PIN_KEY2, PIN_KEY2 | PIN_KEY3, PIN_KEY3
  | PIN_KEY4, PIN_KEY4 | PIN_KEY5, PIN_KEY5 | PIN_KEY6, PIN_KEY6
  | PIN_ENC_A, PIN_ENC_A | PIN_ENC_B, PIN_ENC_B | PIN_ENC_SW, PIN_ENC_SW => true
  | _, _ => false
  end.

(** What the busy wait [while(!PIN_read(PIN_ENC_A));] sees: phase A reads low
    [n] more times and then high, or it stays low for ever. *)
Inductive settle : Type :=
| Rises (n : nat)
| StuckLow.

(** The inputs of one pass through the loop body.  Every pin is read at most
    once per pass ([level]), except phase A, which is read again by the busy
    wait after a rotation ([detent]). *)
Record poll : Type := mkPoll {
  level : pin -> bool;
  detent : settle
}.

Definition PIN_read (io : poll) (p : pin) : bool := level io p.

(** All pins high: nothing pressed, encoder at rest. *)
Definition idle : poll := mkPoll (fun _ => true) (Rises 0).

(** [io] with pin [p] reading [b]. *)
Definition with_pin (p : pin) (b : bool) (io : poll) : poll :=
  mkPoll (fun q => if pin_eqb q p then b else level io q) (detent io).

(* ================================================================== *)
(** ** Outputs: calls to the collaborators *)

Inductive key : Type := Key1 | Key2 | Key3 | Key4 | Key5 | Key6.

(** The macro functions (the callbacks the user customizes). *)
Inductive hook : Type :=
| Pressed (k : key)
| Released (k : key)
| Hold (k : key)
| EncCwAction | EncCwReleased
| EncCcwAction | EncCcwReleased
| EncSwPressed | EncSwReleased.

(** Consumer control codes of src/usb_composite.h, by name. *)
Inductive con_code : Type :=
| CON_MEDIA_STOP | CON_MEDIA_PLAY | CON_MEDIA_PAUSE
| CON_VOL_UP | CON_VOL_DOWN | CON_VOL_MUTE.

(** One constructor per function of the collaborators, carrying the
    arguments of the call, and [Fire h] for the entry of control into the
    macro function [h]: the PRESSED, RELEASED, HELD, ACTION events of the
    specification.  A macro function logs its entry and then runs its body,
    so that also the empty [KEYn_HOLD] functions are seen in the trace. *)
Inductive event : Type :=
| Neo_init
| Neo_clearAll
| Neo_sendByte (data : Z)
| Neo_writeHue (pixel hue bright : Z)
| Neo_clearPixel (pixel : Z)
| Neo_update
| Clk_config
| Dly_ms (ms : Z)
| Wdt_start
| Wdt_reset
| Boot_now
| Hid_init
| Con_press (c : con_code)
| Con_release
| Kbd_press (c : ascii)
| Kbd_release (c : ascii)
| Fire (h : hook).

Definition trace : Type := list event.

(* ================================================================== *)
(** ** State and the monad of the firmware *)

Record state : Type := mkState {
  key1last : bool;
  key2last : bool;
  key3last : bool;
  key4last : bool;
  key5last : bool;
  key6last : bool;
  isSwitchPressed : bool;
  neoencoder : Z
}.

(** The initializers of [main] and of the global. *)
Definition init_state : state :=
  mkState false false false false false false false 0.

Definition set_key1last (b : bool) (s : state) : state :=
  mkState b (key2last s) (key3last s) (key4last s) (key5last s) (key6last s)
          (isSwitchPressed s) (neoencoder s).
Definition set_key2last (b : bool) (s : state) : state :=
  mkState (key1last s) b (key3last s) (key4last s) (key5last s) (key6last s)
          (isSwitchPressed s) (neoencoder s).
Definition set_key3last (b : bool) (s : state) : state :=
  mkState (key1last s) (key2last s) b (key4last s) (key5last s) (key6last s)
          (isSwitchPressed s) (neoencoder s).
Definition set_key4last (b : bool) (s : state) : state :=
  mkState (key1last s) (key2last s) (key3last s) b (key5last s) (key6last s)
          (isSwitchPressed s) (neoencoder s).
Definition set_key5last (b : bool) (s : state) : state :=
  mkState (key1last s) (key2last s) (key3last s) (key4last s) b (key6last s)
          (isSwitchPressed s) (neoencoder s).
Definition set_key6last (b : bool) (s : state) : state :=
  mkState (key1last s) (key2last s) (key3last s) (key4last s) (key5last s) b
          (isSwitchPressed s) (neoencoder s).
Definition set_isSwitchPressed (b : bool) (s : state) : state :=
  mkState (key1last s) (key2last s) (key3last s) (key4last s) (key5last s)
          (key6last s) b (neoencoder s).
Definition set_neoencoder (n : Z) (s : state) : state :=
  mkState (key1last s) (key2last s) (key3last s) (key4last s) (key5last s)
          (key6last s) (isSwitchPressed s) n.

(** The result of running a piece of the firmware from a state: the calls it
    made, the state it left, and its value; [None] when control never comes
    back (bootloader entered, or the busy wait spinning for ever). *)
Record outcome (A : Type) : Type := mkOutcome {
  emitted : trace;
  final : state;
  value : option A
}.
Arguments mkOutcome {A} _ _ _.
Arguments emitted {A} _.
Arguments final {A} _.
Arguments value {A} _.

Definition M (A : Type) : Type := state -> outcome A.

Definition ret {A : Type} (a : A) : M A :=
  fun s => mkOutcome [] s (Some a).

Definition bind {A B : Type} (m : M A) (f : A -> M B) : M B :=
  fun s =>
    let r := m s in
    match value r with
    | None => mkOutcome (emitted r) (final r) None
    | Some a =>
        let r' := f a (final r) in
        mkOutcome (emitted r ++ emitted r') (final r') (value r')
    end.

Definition never {A : Type} : M A :=
  fun s => mkOutcome [] s None.

Definition emit (e : event) : M unit :=
  fun s => mkOutcome [e] s (Some tt).

Definition gets {A : Type} (f : state -> A) : M A :=
  fun s => mkOutcome [] s (Some (f s)).

Definition modify (f : state -> state) : M unit :=
  fun s => mkOutcome [] (f s) (Some tt).

Declare Scope fw_scope.
Delimit Scope fw_scope with fw.
Notation "x <- m ;; k" := (bind m (fun x => k))
  (at level 61, m at next level, right associativity) : fw_scope.
Notation "m ;; k" := (bind m (fun _ => k))
  (at level 61, right associativity) : fw_scope.
Local Open Scope fw_scope.

(** [uint8_t] arithmetic wraps modulo 256. *)
Definition u8 (z : Z) : Z := z mod 256.

(* ================================================================== *)
(** ** Collaborators (src/neo.h, src/system.h, src/delay.h,
       src/usb_composite.h): every call is logged *)

Definition NEO_init : M unit := emit Neo_init.
Definition NEO_clearAll : M unit := emit Neo_clearAll.
Definition NEO_sendByte (data : Z) : M unit := emit (Neo_sendByte data).
Definition NEO_writeHue (pixel hue bright : Z) : M unit :=
  emit (Neo_writeHue pixel hue bright).
Definition NEO_clearPixel (pixel : Z) : M unit := emit (Neo_clearPixel pixel).
Definition NEO_update : M unit := emit Neo_update.
Definition CLK_config : M unit := emit Clk_config.
Definition DLY_ms (ms : Z) : M unit := emit (Dly_ms ms).
Definition WDT_start : M unit := emit Wdt_start.
Definition WDT_reset : M unit := emit Wdt_reset.
Definition HID_init : M unit := emit Hid_init.
Definition CON_press (c : con_code) : M unit := emit (Con_press c).
Definition CON_release : M unit := emit Con_release.
Definition KBD_press (c : ascii) : M unit := emit (Kbd_press c).
Definition KBD_release (c : ascii) : M unit := emit (Kbd_release c).

(** Modelled from the spec: [BOOT_now] of src/system.h, which is not part of
    the sources at hand.  The spec gives it as [enterFirmwareUpdateMode()],
    which never returns. *)
Definition BOOT_now : M unit := emit Boot_now ;; never.

(** Modelled from the spec: [NEO_COUNT] of src/config.h, which is not part of
    the sources at hand.  The ring is 12 pixels starting at index 6, after
    the six key pixels 0..5. *)
Definition NEO_COUNT : Z := 18.

(* ================================================================== *)
(** ** Macro functions *)

Definition KEY1_PRESSED : M unit := emit (Fire (Pressed Key1)) ;; CON_press CON_MEDIA_STOP.
Definition KEY1_RELEASED : M unit := emit (Fire (Released Key1)) ;; CON_release.
Definition KEY1_HOLD : M unit := emit (Fire (Hold Key1)).

Definition KEY2_PRESSED : M unit := emit (Fire (Pressed Key2)) ;; CON_press CON_MEDIA_PLAY.
Definition KEY2_RELEASED : M unit := emit (Fire (Released Key2)) ;; CON_release.
Definition KEY2_HOLD : M unit := emit (Fire (Hold Key2)).

Definition KEY3_PRESSED : M unit := emit (Fire (Pressed Key3)) ;; CON_press CON_MEDIA_PAUSE.
Definition KEY3_RELEASED : M unit := emit (Fire (Released Key3)) ;; CON_release.
Definition KEY3_HOLD : M unit := emit (Fire (Hold Key3)).

Definition KEY4_PRESSED : M unit := emit (Fire (Pressed Key4)) ;; KBD_press "d"%char.
Definition KEY4_RELEASED : M unit := emit (Fire (Released Key4)) ;; KBD_release "d"%char.
Definition KEY4_HOLD : M unit := emit (Fire (Hold Key4)).

Definition KEY5_PRESSED : M unit := emit (Fire (Pressed Key5)) ;; KBD_press "e"%char.
Definition KEY5_RELEASED : M unit := emit (Fire (Released Key5)) ;; KBD_release "e"%char.
Definition KEY5_HOLD : M unit := emit (Fire (Hold Key5)).

Definition KEY6_PRESSED : M unit := emit (Fire (Pressed Key6)) ;; KBD_press "f"%char.
Definition KEY6_RELEASED : M unit := emit (Fire (Released Key6)) ;; KBD_release "f"%char.
Definition KEY6_HOLD : M unit := emit (Fire (Hold Key6)).

Definition ENC_CW_ACTION : M unit := emit (Fire EncCwAction) ;; CON_press CON_VOL_UP.
Definition ENC_CW_RELEASED : M unit := emit (Fire EncCwReleased) ;; CON_release.
Definition ENC_CCW_ACTION : M unit := emit (Fire EncCcwAction) ;; CON_press CON_VOL_DOWN.
Definition ENC_CCW_RELEASED : M unit := emit (Fire EncCcwReleased) ;; CON_release.
Definition ENC_SW_PRESSED : M unit := emit (Fire EncSwPressed) ;; CON_press CON_VOL_MUTE.
Definition ENC_SW_RELEASED : M unit := emit (Fire EncSwReleased) ;; CON_release.

(* ================================================================== *)
(** ** NeoPixel configuration and functions *)

Definition NEO_BRIGHT_KEYS : Z := 2.
Definition NEO_BRIGHT_ENC : Z := 0.

Definition NEO_KEY1 : Z := 0.
Definition NEO_KEY2 : Z := 32.
Definition NEO_KEY3 : Z := 64.
Definition NEO_KEY4 : Z := 96.
Definition NEO_KEY5 : Z := 128.
Definition NEO_KEY6 : Z := 160.

(** The body of [for(i=6; i<18; i++)] in [NEO_encoder_update], entered with
    the current [i] and [j]; [fuel] bounds the passes. *)
Fixpoint ring_loop (fuel : nat) (i j : Z) : M unit :=
  match fuel with
  | O => ret tt
  | S fuel' =>
      if i <? 18 then
        NEO_writeHue i j NEO_BRIGHT_ENC ;;
        let j1 := u8 (j + 16) in
        let j2 := if 192 <=? j1 then u8 (j1 - 192) else j1 in
        ring_loop fuel' (u8 (i + 1)) j2
      else ret tt
  end.

(** Update NeoPixel ring colors (lines 217-226). *)
Definition NEO_encoder_update : M unit :=
  j <- gets neoencoder ;;
  ring_loop 18 6 j ;;
  NEO_update.

(** Rotate NeoPixel ring clockwise (lines 229-233). *)
Definition NEO_encoder_cw : M unit :=
  modify (fun s => set_neoencoder (u8 (neoencoder s + 8)) s) ;;
  n <- gets neoencoder ;;
  (if 192 <=? n then modify (set_neoencoder (u8 (n - 192))) else ret tt) ;;
  NEO_encoder_update.

(** Rotate NeoPixel ring counter-clockwise (lines 236-240). *)
Definition NEO_encoder_ccw : M unit :=
  modify (fun s => set_neoencoder (u8 (neoencoder s - 8)) s) ;;
  n <- gets neoencoder ;;
  (if 192 <=? n then modify (set_neoencoder (u8 (n - 64))) else ret tt) ;;
  NEO_encoder_update.

(* ================================================================== *)
(** ** Main function *)

(** [a != b] on two bits. *)
Definition neqb (a b : bool) : bool := negb (Bool.eqb a b).

(** Handle key 1 (lines 279-294 of macropad_plus.c). *)
Definition handle_key1 (io : poll) : M unit :=
  last <- gets key1last ;;
  if neqb (negb (PIN_read io PIN_KEY1)) last then
    modify (fun s => set_key1last (negb (key1last s)) s) ;;
    now <- gets key1last ;;
    if now then
      NEO_writeHue 0 NEO_KEY1 NEO_BRIGHT_KEYS ;; NEO_update ;; KEY1_PRESSED
    else
      NEO_clearPixel 0 ;; NEO_update ;; KEY1_RELEASED
  else if last then KEY1_HOLD
  else ret tt.

(** Handle key 2 (lines 298-313 of macropad_plus.c). *)
Definition handle_key2 (io : poll) : M unit :=
  last <- gets key2last ;;
  if neqb (negb (PIN_read io PIN_KEY2)) last then
    modify (fun s => set_key2last (negb (key2last s)) s) ;;
    now <- gets key2last ;;
    if now then
      NEO_writeHue 1 NEO_KEY2 NEO_BRIGHT_KEYS ;; NEO_update ;; KEY2_PRESSED
    else
      NEO_clearPixel 1 ;; NEO_update ;; KEY2_RELEASED
  else if last then KEY2_HOLD
  else ret tt.

(** Handle key 3 (lines 317-332 of macropad_plus.c). *)
Definition handle_key3 (io : poll) : M unit :=
  last <- gets key3last ;;
  if neqb (negb (PIN_read io PIN_KEY3)) last then
    modify (fun s => set_key3last (negb (key3last s)) s) ;;
    now <- gets key3last ;;
    if now then
      NEO_writeHue 2 NEO_KEY3 NEO_BRIGHT_KEYS ;; NEO_update ;; KEY3_PRESSED
    else
      NEO_clearPixel 2 ;; NEO_update ;; KEY3_RELEASED
  else if last then KEY3_HOLD
  else ret tt.

(** Handle key 4 (lines 336-351 of macropad_plus.c). *)
Definition handle_key4 (io : poll) : M unit :=
  last <- gets key4last ;;
  if neqb (negb (PIN_read io PIN_KEY4)) last then
    modify (fun s => set_key4last (negb (key4last s)) s) ;;
    now <- gets key4last ;;
    if now then
      NEO_writeHue 3 NEO_KEY4 NEO_BRIGHT_KEYS ;; NEO_update ;; KEY4_PRESSED
    else
      NEO_clearPixel 3 ;; NEO_update ;; KEY4_RELEASED
  else if last then KEY4_HOLD
  else ret tt.

(** Handle key 5 (lines 355-370 of macropad_plus.c). *)
Definition handle_key5 (io : poll) : M unit :=
  last <- gets key5last ;;
  if neqb (negb (PIN_read io PIN_KEY5)) last then
    modify (fun s => set_key5last (negb (key5last s)) s) ;;
    now <- gets key5last ;;
    if now then
      NEO_writeHue 4 NEO_KEY5 NEO_BRIGHT_KEYS ;; NEO_update ;; KEY5_PRESSED
    else
      NEO_clearPixel 4 ;; NEO_update ;; KEY5_RELEASED
  else if last then KEY5_HOLD
  else ret tt.

(** Handle key 6 (lines 374-389 of macropad_plus.c). *)
Definition handle_key6 (io : poll) : M unit :=
  last <- gets key6last ;;
  if neqb (negb (PIN_read io PIN_KEY6)) last then
    modify (fun s => set_key6last (negb (key6last s)) s) ;;
    now <- gets key6last ;;
    if now then
      NEO_writeHue 5 NEO_KEY6 NEO_BRIGHT_KEYS ;; NEO_update ;; KEY6_PRESSED
    else
      NEO_clearPixel 5 ;; NEO_update ;; KEY6_RELEASED
  else if last then KEY6_HOLD
  else ret tt.

(** [while(!PIN_read(PIN_ENC_A));] with phase A reading low [n] more times. *)
Fixpoint spin (n : nat) : M unit :=
  match n with
  | O => ret tt
  | S n' => spin n'
  end.

Definition wait_next_detent (io : poll) : M unit :=
  match detent io with
  | Rises n => spin n
  | StuckLow => never
  end.

(** The encoder switch, polled in the [else] branch of the rotation test.
    The two conditions read the pin under [&&]: only one of the two reads is
    evaluated in a pass, so both see [level io PIN_ENC_SW]. *)
Definition handle_switch (io : poll) : M unit :=
  sw <- gets isSwitchPressed ;;
  if negb sw && negb (PIN_read io PIN_ENC_SW) then
    ENC_SW_PRESSED ;;
    modify (set_isSwitchPressed true)
  else if sw && PIN_read io PIN_ENC_SW then
    ENC_SW_RELEASED ;;
    modify (set_isSwitchPressed false)
  else ret tt.

(** Handle rotary encoder (lines 393-417). *)
Definition handle_encoder (io : poll) : M unit :=
  if negb (PIN_read io PIN_ENC_A) then
    (if PIN_read io PIN_ENC_B then
       ENC_CW_ACTION ;; NEO_encoder_cw ;; DLY_ms 5 ;; ENC_CW_RELEASED
     else
       ENC_CCW_ACTION ;; NEO_encoder_ccw ;; DLY_ms 5 ;; ENC_CCW_RELEASED) ;;
    wait_next_detent io
  else
    handle_switch io.

(** One pass through the body of [while(1)] (lines 275-421). *)
Definition loop_body (io : poll) : M unit :=
  handle_key1 io ;;
  handle_key2 io ;;
  handle_key3 io ;;
  handle_key4 io ;;
  handle_key5 io ;;
  handle_key6 io ;;
  handle_encoder io ;;
  DLY_ms 1 ;;
  WDT_reset.

(** [for(i=3*NEO_COUNT; i; i--) NEO_sendByte(127);] with [i] passes left. *)
Fixpoint light_up (i : nat) : M unit :=
  match i with
  | O => ret tt
  | S i' => NEO_sendByte 127 ;; light_up i'
  end.

(** The part of [main] before the loop (lines 257-272); [boot] gives the
    pin levels then. *)
Definition setup (boot : poll) : M unit :=
  NEO_init ;;
  CLK_config ;;
  DLY_ms 10 ;;
  NEO_clearAll ;;
  (if negb (PIN_read boot PIN_ENC_SW) then
     light_up (Z.to_nat (u8 (3 * NEO_COUNT))) ;;
     BOOT_now
   else ret tt) ;;
  HID_init ;;
  DLY_ms 500 ;;
  WDT_start ;;
  NEO_encoder_update.

(** The passes of [while(1)] over the inputs [ios], one [poll] per pass.  The
    loop has no exit: a value [Some tt] says the inputs are used up. *)
Fixpoint loop (ios : list poll) : M unit :=
  match ios with
  | [] => ret tt
  | io :: rest => loop_body io ;; loop rest
  end.

Definition main (boot : poll) (ios : list poll) : M unit :=
  setup boot ;; loop ios.

(** [m] run [k] times in a row. *)
Fixpoint times (k : nat) (m : M unit) : M unit :=
  match k with
  | O => ret tt
  | S k' => m ;; times k' m
  end.

(* ================================================================== *)
(** * Specification side: the vocabulary of the properties *)

(* ------------------------------------------------------------------ *)
(** ** What a command does to the state and to the trace *)

(** [m] never changes the component [g] of the state. *)
Definition keeps {X A : Type} (g : state -> X) (m : M A) : Prop :=
  forall s, g (final (m s)) = g s.

(** [m] maintains the invariant [P], also when it does not return. *)
Definition preserves {A : Type} (P : state -> Prop) (m : M A) : Prop :=
  forall s, P s -> P (final (m s)).

(** [m] always hands control back. *)
Definition total {A : Type} (m : M A) : Prop :=
  forall s, exists a, value (m s) = Some a.

(** [m] makes no call selected by [p]. *)
Definition silent {A : Type} (p : event -> bool) (m : M A) : Prop :=
  forall s, filter p (emitted (m s)) = [].

(** The observation of a run through the view [(p, g)]: the selected calls
    and one component of the final state. *)
Definition obs {X A : Type} (p : event -> bool) (g : state -> X)
  (r : outcome A) : trace * X :=
  (filter p (emitted r), g (final r)).

(* ------------------------------------------------------------------ *)
(** ** The ring phase *)

Definition phase_ok (s : state) : Prop := 0 <= neoencoder s < 192.

(** The value [neoencoder] has after [NEO_encoder_cw], from the value [n]. *)
Definition cw_step (n : Z) : Z :=
  let n1 := u8 (n + 8) in if 192 <=? n1 then u8 (n1 - 192) else n1.

(** The value [neoencoder] has after [NEO_encoder_ccw], from the value [n]. *)
Definition ccw_step (n : Z) : Z :=
  let n1 := u8 (n - 8) in if 192 <=? n1 then u8 (n1 - 64) else n1.

(** [m] changes the ring phase by the function [F], whether it returns or
    not. *)
Definition maps_phase {A : Type} (F : Z -> Z) (m : M A) : Prop :=
  forall s, neoencoder (final (m s)) = F (neoencoder s).

(** The ring phase after the encoder handler, from the phase [n] before. *)
Definition encoder_phase (io : poll) (n : Z) : Z :=
  if PIN_read io PIN_ENC_A then n
  else if PIN_read io PIN_ENC_B then cw_step n else ccw_step n.

(** The operations that have [neoencoder] in scope. *)
Inductive op : Type :=
| Op_update
| Op_cw
| Op_ccw
| Op_setup (boot : poll)
| Op_pass (io : poll).

Definition run_op (o : op) : M unit :=
  match o with
  | Op_update => NEO_encoder_update
  | Op_cw => NEO_encoder_cw
  | Op_ccw => NEO_encoder_ccw
  | Op_setup boot => setup boot
  | Op_pass io => loop_body io
  end.

Fixpoint run_ops (os : list op) : M unit :=
  match os with
  | [] => ret tt
  | o :: rest => run_op o ;; run_ops rest
  end.

(** The rendering rule as the specification words it (4.4): the twelve ring
    pixels from index 6 get the hue [(RingPhase + 16 * offset) mod 192] at
    the ring brightness, then one flush. *)
Definition ring_frame (phase : Z) : trace :=
  map (fun o => Neo_writeHue (6 + Z.of_nat o)
                  ((phase + 16 * Z.of_nat o) mod 192) NEO_BRIGHT_ENC)
      (seq 0 12)
  ++ [Neo_update].

(* ------------------------------------------------------------------ *)
(** ** The six key handlers, seen through one key descriptor *)

Definition key_pin (k : key) : pin :=
  match k with
  | Key1 => PIN_KEY1 | Key2 => PIN_KEY2 | Key3 => PIN_KEY3
  | Key4 => PIN_KEY4 | Key5 => PIN_KEY5 | Key6 => PIN_KEY6
  end.

Definition key_pixel (k : key) : Z :=
  match k with
  | Key1 => 0 | Key2 => 1 | Key3 => 2 | Key4 => 3 | Key5 => 4 | Key6 => 5
  end.

Definition key_hue (k : key) : Z :=
  match k with
  | Key1 => NEO_KEY1 | Key2 => NEO_KEY2 | Key3 => NEO_KEY3
  | Key4 => NEO_KEY4 | Key5 => NEO_KEY5 | Key6 => NEO_KEY6
  end.

Definition key_last (k : key) : state -> bool :=
  match k with
  | Key1 => key1last | Key2 => key2last | Key3 => key3last
  | Key4 => key4last | Key5 => key5last | Key6 => key6last
  end.

Definition set_key_last (k : key) : bool -> state -> state :=
  match k with
  | Key1 => set_key1last | Key2 => set_key2last | Key3 => set_key3last
  | Key4 => set_key4last | Key5 => set_key5last | Key6 => set_key6last
  end.

Definition KEY_PRESSED (k : key) : M unit :=
  match k with
  | Key1 => KEY1_PRESSED | Key2 => KEY2_PRESSED | Key3 => KEY3_PRESSED
  | Key4 => KEY4_PRESSED | Key5 => KEY5_PRESSED | Key6 => KEY6_PRESSED
  end.

Definition KEY_RELEASED (k : key) : M unit :=
  match k with
  | Key1 => KEY1_RELEASED | Key2 => KEY2_RELEASED | Key3 => KEY3_RELEASED
  | Key4 => KEY4_RELEASED | Key5 => KEY5_RELEASED | Key6 => KEY6_RELEASED
  end.

Definition KEY_HOLD (k : key) : M unit :=
  match k with
  | Key1 => KEY1_HOLD | Key2 => KEY2_HOLD | Key3 => KEY3_HOLD
  | Key4 => KEY4_HOLD | Key5 => KEY5_HOLD | Key6 => KEY6_HOLD
  end.

(** The handler of key [k] in the loop body. *)
Definition handle_key (k : key) : poll -> M unit :=
  match k with
  | Key1 => handle_key1 | Key2 => handle_key2 | Key3 => handle_key3
  | Key4 => handle_key4 | Key5 => handle_key5 | Key6 => handle_key6
  end.

(** The transition rule as the specification words it (4.1), for one key:
    [currentPressed = !rawLevel]; on a change store it and either light the
    pixel and fire PRESSED, or clear the pixel and fire RELEASED, the LED
    update first; without a change fire HELD while the key is down. *)
Definition key_rule (k : key) (rawLevel : bool) : M unit :=
  lastPressed <- gets (key_last k) ;;
  let currentPressed := negb rawLevel in
  if neqb currentPressed lastPressed then
    modify (set_key_last k currentPressed) ;;
    if currentPressed then
      NEO_writeHue (key_pixel k) (key_hue k) NEO_BRIGHT_KEYS ;;
      NEO_update ;;
      KEY_PRESSED k
    else
      NEO_clearPixel (key_pixel k) ;;
      NEO_update ;;
      KEY_RELEASED k
  else if lastPressed then KEY_HOLD k
  else ret tt.

(** What the rule emits, as a function of the raw level and of the key's own
    stored flag alone. *)
Definition key_rule_trace (k : key) (rawLevel lastPressed : bool) : trace :=
  if neqb (negb rawLevel) lastPressed then
    if negb rawLevel then
      Neo_writeHue (key_pixel k) (key_hue k) NEO_BRIGHT_KEYS :: Neo_update
        :: emitted (KEY_PRESSED k init_state)
    else
      Neo_clearPixel (key_pixel k) :: Neo_update
        :: emitted (KEY_RELEASED k init_state)
  else if lastPressed then emitted (KEY_HOLD k init_state)
  else [].

(** The calls made to the NeoPixel driver. *)
Definition is_led (e : event) : bool :=
  match e with
  | Neo_init | Neo_clearAll | Neo_sendByte _ | Neo_writeHue _ _ _
  | Neo_clearPixel _ | Neo_update => true
  | _ => false
  end.

Definition key_eqb (a b : key) : bool :=
  match a, b with
  | Key1, Key1 | Key2, Key2 | Key3, Key3
  | Key4, Key4 | Key5, Key5 | Key6, Key6 => true
  | _, _ => false
  end.

Definition hook_eqb (a b : hook) : bool :=
  match a, b with
  | Pressed x, Pressed y | Released x, Released y | Hold x, Hold y => key_eqb x y
  | EncCwAction, EncCwAction | EncCwReleased, EncCwReleased
  | EncCcwAction, EncCcwAction | EncCcwReleased, EncCcwReleased
  | EncSwPressed, EncSwPressed | EncSwReleased, EncSwReleased => true
  | _, _ => false
  end.

(** The entry into the macro function [h]. *)
Definition fires (h : hook) (e : event) : bool :=
  match e with
  | Fire h' => hook_eqb h h'
  | _ => false
  end.

(** How often the macro function [h] was called in the trace [t]. *)
Definition count_fire (h : hook) (t : trace) : nat :=
  length (filter (fires h) t).

(** The handler [f] run over the inputs of successive passes. *)
Fixpoint passes (f : poll -> M unit) (ios : list poll) : M unit :=
  match ios with
  | [] => ret tt
  | io :: rest => f io ;; passes f rest
  end.

(** The LED command, the macro function and its entry marker on a change of
    key [k] to [pressed]. *)
Definition key_led (k : key) (pressed : bool) : event :=
  if pressed then Neo_writeHue (key_pixel k) (key_hue k) NEO_BRIGHT_KEYS
  else Neo_clearPixel (key_pixel k).

Definition key_callback (k : key) (pressed : bool) : M unit :=
  if pressed then KEY_PRESSED k else KEY_RELEASED k.

Definition key_hook (k : key) (pressed : bool) : hook :=
  if pressed then Pressed k else Released k.

(** The calls that concern key [k]: writes to its pixel and entries into its
    three macro functions. *)
Definition about_key (k : key) (e : event) : bool :=
  match e with
  | Neo_writeHue p _ _ => p =? key_pixel k
  | Neo_clearPixel p => p =? key_pixel k
  | Fire (Pressed j) | Fire (Released j) | Fire (Hold j) => key_eqb j k
  | _ => false
  end.

(** What successive passes show of key [k], from the levels its pin reads
    and from its stored flag at the start. *)
Fixpoint key_view (k : key) (raws : list bool) (last : bool) : trace :=
  match raws with
  | [] => []
  | raw :: rest =>
      filter (about_key k) (key_rule_trace k raw last)
        ++ key_view k rest (negb raw)
  end.

Definition key_levels (k : key) (ios : list poll) : list bool :=
  map (fun io => PIN_read io (key_pin k)) ios.

(** The three macro functions of key [k]. *)
Definition hook_of_key (k : key) (h : hook) : Prop :=
  h = Pressed k \/ h = Released k \/ h = Hold k.

(** The counts of PRESSED, HELD and RELEASED over a trace. *)
Definition key_counts (k : key) (t : trace) : nat * nat * nat :=
  (count_fire (Pressed k) t, count_fire (Hold k) t, count_fire (Released k) t).

(** The USB HID calls bound to the press ([pressed = true]) and to the
    release of key [k], as a table: media keys for keys 1..3, the
    characters d, e, f for keys 4..6. *)
Definition key_hid (k : key) (pressed : bool) : trace :=
  match k, pressed with
  | Key1, true => [Con_press CON_MEDIA_STOP]
  | Key2, true => [Con_press CON_MEDIA_PLAY]
  | Key3, true => [Con_press CON_MEDIA_PAUSE]
  | Key4, true => [Kbd_press "d"%char]
  | Key5, true => [Kbd_press "e"%char]
  | Key6, true => [Kbd_press "f"%char]
  | Key1, false | Key2, false | Key3, false => [Con_release]
  | Key4, false => [Kbd_release "d"%char]
  | Key5, false => [Kbd_release "e"%char]
  | Key6, false => [Kbd_release "f"%char]
  end.

(** The calls the transition rule of the specification asks for, written
    out call by call: with [currentPressed = !rawLevel], on a change to
    pressed the pixel of the key is lit at its hue and the key brightness,
    flushed, and the PRESSED event fires; on a change to released the pixel
    is cleared, flushed, and the RELEASED event fires; without a change the
    HELD event fires while the key is down, and nothing happens otherwise. *)
Definition key_events (k : key) (rawLevel lastPressed : bool) : trace :=
  let currentPressed := negb rawLevel in
  if neqb currentPressed lastPressed then
    if currentPressed then
      [Neo_writeHue (key_pixel k) (key_hue k) NEO_BRIGHT_KEYS; Neo_update;
       Fire (Pressed k)] ++ key_hid k true
    else
      [Neo_clearPixel (key_pixel k); Neo_update; Fire (Released k)]
        ++ key_hid k false
  else if lastPressed then [Fire (Hold k)]
  else [].

(** Of these, the calls that name the key: its pixel command and its
    event. *)
Definition key_shown (k : key) (rawLevel lastPressed : bool) : trace :=
  let currentPressed := negb rawLevel in
  if neqb currentPressed lastPressed then
    if currentPressed then
      [Neo_writeHue (key_pixel k) (key_hue k) NEO_BRIGHT_KEYS; Fire (Pressed k)]
    else
      [Neo_clearPixel (key_pixel k); Fire (Released k)]
  else if lastPressed then [Fire (Hold k)]
  else [].

(* ------------------------------------------------------------------ *)
(** ** The encoder and its switch *)

(** The calls that concern the encoder switch. *)
Definition about_switch (e : event) : bool :=
  match e with
  | Fire EncSwPressed | Fire EncSwReleased => true
  | _ => false
  end.

(** The selectors under which the ring rendering shows nothing: they pick
    no hue write to the ring pixels 6..17 and no flush. *)
Definition off_ring (p : event -> bool) : Prop :=
  p Neo_update = false
  /\ forall i j b, 6 <= i -> p (Neo_writeHue i j b) = false.

(** The busy wait of the pass ends: phase A is high at the rotation test,
    or it rises again after a rotation. *)
Definition settles (io : poll) : bool :=
  PIN_read io PIN_ENC_A
  || match detent io with Rises _ => true | StuckLow => false end.

(** What the switch test emits, from the stored flag and the pin level. *)
Definition switch_rule_trace (isPressed rawLevel : bool) : trace :=
  if negb isPressed && negb rawLevel then
    [Fire EncSwPressed; Con_press CON_VOL_MUTE]
  else if isPressed && rawLevel then
    [Fire EncSwReleased; Con_release]
  else [].

(* ------------------------------------------------------------------ *)
(** ** Reading traces *)

Definition hook_eq_dec (a b : hook) : {a = b} + {a <> b}.
Proof. repeat decide equality. Defined.

Definition event_eq_dec (a b : event) : {a = b} + {a <> b}.
Proof.
  decide equality;
    first [ apply Z.eq_dec | apply ascii_dec | apply hook_eq_dec
          | decide equality ].
Defined.

(** The calls [want] occur in the trace [t] in this order, other calls
    possibly in between. *)
Fixpoint in_order (want : list event) (t : trace) : bool :=
  match want, t with
  | [], _ => true
  | _ :: _, [] => false
  | w :: ws, e :: rest =>
      if event_eq_dec w e then in_order ws rest else in_order want rest
  end.

(** The bytes handed to [NEO_sendByte], in order.  A pixel takes three of
    them, one per colour channel; a channel byte ranges over 0..255. *)
Definition sent_bytes (t : trace) : list Z :=
  flat_map (fun e => match e with Neo_sendByte b => [b] | _ => [] end) t.

(** The bytes are those of [pixels] pixels, every channel of every pixel at
    the value [lvl]: white, at full scale for [lvl = 255]. *)
Definition white_at (lvl pixels : Z) (bytes : list Z) : bool :=
  (Z.of_nat (length bytes) =? 3 * pixels) && forallb (Z.eqb lvl) bytes.

Definition called (e : event) (t : trace) : bool :=
  existsb (fun e' => if event_eq_dec e e' then true else false) t.

(* ------------------------------------------------------------------ *)
(** ** Whole runs of the loop *)

Definition is_wdt_reset (e : event) : bool :=
  match e with Wdt_reset => true | _ => false end.

(** The calls of the six key handlers of a pass, key 1 first, each by the
    transition rule on its own pin and flag. *)
Definition keys_events (io : poll) (s : state) : trace :=
  key_events Key1 (PIN_read io PIN_KEY1) (key1last s)
  ++ key_events Key2 (PIN_read io PIN_KEY2) (key2last s)
  ++ key_events Key3 (PIN_read io PIN_KEY3) (key3last s)
  ++ key_events Key4 (PIN_read io PIN_KEY4) (key4last s)
  ++ key_events Key5 (PIN_read io PIN_KEY5) (key5last s)
  ++ key_events Key6 (PIN_read io PIN_KEY6) (key6last s).

(** The state after the six key handlers of a pass: every key flag holds
    the logical state just read. *)
Definition after_keys (io : poll) (s : state) : state :=
  mkState (negb (PIN_read io PIN_KEY1)) (negb (PIN_read io PIN_KEY2))
          (negb (PIN_read io PIN_KEY3)) (negb (PIN_read io PIN_KEY4))
          (negb (PIN_read io PIN_KEY5)) (negb (PIN_read io PIN_KEY6))
          (isSwitchPressed s) (neoencoder s).

(** The calls that report one detent, clockwise ([cw = true]) or
    counter-clockwise, from the ring phase [phase]: the ACTION macro
    function with its volume key, the ring rendered from the phase moved by
    8, the 5 ms delay, the RELEASED macro function with its key release. *)
Definition rotation_events (cw : bool) (phase : Z) : trace :=
  if cw then
    [Fire EncCwAction; Con_press CON_VOL_UP]
      ++ ring_frame ((phase + 8) mod 192)
      ++ [Dly_ms 5; Fire EncCwReleased; Con_release]
  else
    [Fire EncCcwAction; Con_press CON_VOL_DOWN]
      ++ ring_frame ((phase - 8) mod 192)
      ++ [Dly_ms 5; Fire EncCcwReleased; Con_release].

(** The calls [main] makes before the loop only: initializations, the raw
    byte stream and the jump to the bootloader. *)
Definition setup_only (e : event) : bool :=
  match e with
  | Neo_init | Neo_clearAll | Neo_sendByte _ | Clk_config
  | Wdt_start | Boot_now | Hid_init => true
  | _ => false
  end.

(** The change of the ring phase the inputs of a pass ask for: one detent
    is 8 hue steps, clockwise up, counter-clockwise down. *)
Definition turn (io : poll) : Z :=
  if PIN_read io PIN_ENC_A then 0
  else if PIN_read io PIN_ENC_B then 8 else -8.

Definition net_turn (ios : list poll) : Z :=
  fold_right (fun io acc => turn io + acc) 0 ios.

(** Follows the macro function calls of key [k] through a trace, from the
    key being [down] or not: PRESSED is legal only when the key is up,
    RELEASED and HELD only when it is down.  Gives the final position, or
    [None] at the first illegal call. *)
Fixpoint key_track (k : key) (down : bool) (t : trace) : option bool :=
  match t with
  | [] => Some down
  | Fire (Pressed j) :: rest =>
      if key_eqb j k then (if down then None else key_track k true rest)
      else key_track k down rest
  | Fire (Released j) :: rest =>
      if key_eqb j k then (if down then key_track k false rest else None)
      else key_track k down rest
  | Fire (Hold j) :: rest =>
      if key_eqb j k then (if down then key_track k down rest else None)
      else key_track k down rest
  | _ :: rest => key_track k down rest
  end.

(** The same for the encoder switch, which has no HELD call. *)
Fixpoint switch_track (down : bool) (t : trace) : option bool :=
  match t with
  | [] => Some down
  | Fire EncSwPressed :: rest =>
      if down then None else switch_track true rest
  | Fire EncSwReleased :: rest =>
      if down then switch_track false rest else None
  | _ :: rest => switch_track down rest
  end.

(** Whether the pixel of key [k] holds a colour after the pixel commands of
    the trace [t], when it did ([lit]) or did not before. *)
Fixpoint pixel_lit (k : key) (lit : bool) (t : trace) : bool :=
  match t with
  | [] => lit
  | Neo_writeHue p _ _ :: rest =>
      pixel_lit k (if p =? key_pixel k then true else lit) rest
  | Neo_clearPixel p :: rest =>
      pixel_lit k (if p =? key_pixel k then false else lit) rest
  | Neo_clearAll :: rest => pixel_lit k false rest
  | _ :: rest => pixel_lit k lit rest
  end.

(** The arguments of a call to the NeoPixel driver are in the ranges the
    source gives them: pixel below [NEO_COUNT], hue in 0..191, brightness in
    0..2. *)
Definition args_ok (e : event) : bool :=
  match e with
  | Neo_writeHue p h b =>
      (0 <=? p) && (p <? NEO_COUNT) && (0 <=? h) && (h <? 192)
      && (0 <=? b) && (b <=? 2)
  | Neo_clearPixel p => (0 <=? p) && (p <? NEO_COUNT)
  | _ => true
  end.

(** [m], started where [P] holds, makes only calls accepted by [q] and
    leaves [P] in place. *)
Definition clean {A : Type} (P : state -> Prop) (q : event -> bool)
  (m : M A) : Prop :=
  forall s, P s -> forallb q (emitted (m s)) = true /\ P (final (m s)).

(** A selector that picks none of the calls of the key handlers. *)
Definition off_keys (p : event -> bool) : Prop :=
  forall k io, silent p (handle_key k io).

(** A selector that picks none of the calls of the encoder handler. *)
Definition off_encoder (p : event -> bool) : Prop :=
  forall io, silent p (handle_encoder io).

(** The keyboard character a key is bound to by its macro functions. *)
Definition key_char (k : key) : option ascii :=
  match k with
  | Key4 => Some "d"%char
  | Key5 => Some "e"%char
  | Key6 => Some "f"%char
  | _ => None
  end.

(** The keyboard reports about the character [c]. *)
Definition about_kbd (c : ascii) (e : event) : bool :=
  match e with
  | Kbd_press c' | Kbd_release c' => Ascii.eqb c' c
  | _ => false
  end.

(** Follows the keyboard reports about [c] as the host sees them: a press
    is legal only while [c] is up, a release only while it is down. *)
Fixpoint kbd_track (c : ascii) (down : bool) (t : trace) : option bool :=
  match t with
  | [] => Some down
  | Kbd_press c' :: rest =>
      if Ascii.eqb c' c then (if down then None else kbd_track c true rest)
      else kbd_track c down rest
  | Kbd_release c' :: rest =>
      if Ascii.eqb c' c then (if down then kbd_track c false rest else None)
      else kbd_track c down rest
  | _ :: rest => kbd_track c down rest
  end.

(** The hues written by a trace, in order. *)
Definition hues (t : trace) : list Z :=
  flat_map (fun e => match e with Neo_writeHue _ h _ => [h] | _ => [] end) t.

(** A list turned by one place: the head goes to the end. *)
Definition rotl {A : Type} (l : list A) : list A :=
  match l with
  | [] => []
  | x :: rest => rest ++ [x]
  end.

(** The edges of a sampled pin: over the levels [raws] read from an
    active-low pin, from the pressed state [last] before them, the number of
    samples where the key goes down, where it stays down, and where it goes
    up. *)
Fixpoint edge_counts (last : bool) (raws : list bool) : nat * nat * nat :=
  match raws with
  | [] => (0, 0, 0)%nat
  | raw :: rest =>
      let '(downs, stays, ups) := edge_counts (negb raw) rest in
      ((if negb raw && negb last then S downs else downs),
       (if negb raw && last then S stays else stays),
       (if raw && last then S ups else ups))
  end.

(* ================================================================== *)
(** * Proofs *)

(* ================================================================== *)
(** ** Reasoning about [bind] *)

Lemma bind_some {A B : Type} (m : M A) (f : A -> M B) (s : state) (a : A) :
  value (m s) = Some a ->
  bind m f s =
  mkOutcome (emitted (m s) ++ emitted (f a (final (m s))))
            (final (f a (final (m s))))
            (value (f a (final (m s)))).
Proof. intros H. unfold bind. rewrite H. reflexivity. Qed.

Lemma bind_none {A B : Type} (m : M A) (f : A -> M B) (s : state) :
  value (m s) = None ->
  bind m f s = mkOutcome (emitted (m s)) (final (m s)) None.
Proof. intros H. unfold bind. rewrite H. reflexivity. Qed.

Lemma final_bind {A B : Type} (m : M A) (f : A -> M B) (s : state) (a : A) :
  value (m s) = Some a ->
  final (bind m f s) = final (f a (final (m s))).
Proof. intros H. rewrite (bind_some _ _ _ _ H). reflexivity. Qed.

Lemma value_bind {A B : Type} (m : M A) (f : A -> M B) (s : state) (a : A) :
  value (m s) = Some a ->
  value (bind m f s) = value (f a (final (m s))).
Proof. intros H. rewrite (bind_some _ _ _ _ H). reflexivity. Qed.

Lemma emitted_bind {A B : Type} (m : M A) (f : A -> M B) (s : state) (a : A) :
  value (m s) = Some a ->
  emitted (bind m f s) = emitted (m s) ++ emitted (f a (final (m s))).
Proof. intros H. rewrite (bind_some _ _ _ _ H). reflexivity. Qed.

(* ================================================================== *)
(** ** The ring phase *)

Lemma ring_loop_frame (fuel : nat) :
  forall i j s,
    final (ring_loop fuel i j s) = s /\ value (ring_loop fuel i j s) = Some tt.
Proof.
  induction fuel as [|fuel IH]; intros i j s; simpl.
  - split; reflexivity.
  - destruct (i <? 18); [|split; reflexivity].
    unfold bind at 1. simpl.
    destruct (IH (u8 (i + 1))
                 (if 192 <=? u8 (j + 16) then u8 (u8 (j + 16) - 192)
                  else u8 (j + 16)) s) as [Hf Hv].
    rewrite Hf, Hv. split; reflexivity.
Qed.

Lemma NEO_encoder_update_frame (s : state) :
  final (NEO_encoder_update s) = s /\ value (NEO_encoder_update s) = Some tt.
Proof.
  unfold NEO_encoder_update.
  rewrite (final_bind _ _ s (neoencoder s)), (value_bind _ _ s (neoencoder s))
    by reflexivity.
  cbn [gets final].
  destruct (ring_loop_frame 18 6 (neoencoder s) s) as [Hf Hv].
  rewrite (final_bind _ _ _ _ Hv), (value_bind _ _ _ _ Hv), Hf.
  split; reflexivity.
Qed.

Arguments NEO_encoder_update : simpl never.

Lemma neoencoder_set (n : Z) (s : state) : neoencoder (set_neoencoder n s) = n.
Proof. reflexivity. Qed.

Lemma set_neoencoder_twice (n m : Z) (s : state) :
  set_neoencoder n (set_neoencoder m s) = set_neoencoder n s.
Proof. reflexivity. Qed.

(** Steps through a [bind] whose first command returns by computation. *)
Ltac step_bind :=
  erewrite ?final_bind, ?value_bind by reflexivity;
  cbn [modify gets ret final value].

Lemma NEO_encoder_cw_final (s : state) :
  final (NEO_encoder_cw s) = set_neoencoder (cw_step (neoencoder s)) s
  /\ value (NEO_encoder_cw s) = Some tt.
Proof.
  unfold NEO_encoder_cw, cw_step.
  step_bind. step_bind. rewrite neoencoder_set.
  destruct (192 <=? u8 (neoencoder s + 8)); step_bind;
    rewrite ?set_neoencoder_twice;
    apply NEO_encoder_update_frame.
Qed.

Lemma NEO_encoder_ccw_final (s : state) :
  final (NEO_encoder_ccw s) = set_neoencoder (ccw_step (neoencoder s)) s
  /\ value (NEO_encoder_ccw s) = Some tt.
Proof.
  unfold NEO_encoder_ccw, ccw_step.
  step_bind. step_bind. rewrite neoencoder_set.
  destruct (192 <=? u8 (neoencoder s - 8)); step_bind;
    rewrite ?set_neoencoder_twice;
    apply NEO_encoder_update_frame.
Qed.

Lemma cw_step_mod (n : Z) : 0 <= n < 192 -> cw_step n = (n + 8) mod 192.
Proof.
  intros H. unfold cw_step, u8.
  destruct (192 <=? (n + 8) mod 256) eqn:E;
    [apply Z.leb_le in E | apply Z.leb_gt in E];
    Z.div_mod_to_equations; lia.
Qed.

Lemma ccw_step_mod (n : Z) : 0 <= n < 192 -> ccw_step n = (n - 8) mod 192.
Proof.
  intros H. unfold ccw_step, u8.
  destruct (192 <=? (n - 8) mod 256) eqn:E;
    [apply Z.leb_le in E | apply Z.leb_gt in E];
    Z.div_mod_to_equations; lia.
Qed.

Lemma times_cw (k : nat) :
  forall s, phase_ok s ->
    final (times k NEO_encoder_cw s)
    = set_neoencoder ((neoencoder s + 8 * Z.of_nat k) mod 192) s
    /\ value (times k NEO_encoder_cw s) = Some tt.
Proof.
  induction k as [|k IH]; intros s Hs.
  - cbn [times ret final value]. unfold phase_ok in Hs.
    change (Z.of_nat 0) with 0. rewrite Z.mul_0_r, Z.add_0_r.
    rewrite Z.mod_small by lia. destruct s; split; reflexivity.
  - cbn [times]. destruct (NEO_encoder_cw_final s) as [Hf Hv].
    rewrite (final_bind _ _ _ _ Hv), (value_bind _ _ _ _ Hv), Hf.
    rewrite (cw_step_mod _ Hs).
    assert (Hok : phase_ok (set_neoencoder ((neoencoder s + 8) mod 192) s)).
    { unfold phase_ok. rewrite neoencoder_set. apply Z.mod_pos_bound. lia. }
    destruct (IH _ Hok) as [Hf' Hv']. rewrite Hf', Hv'. split; [|reflexivity].
    rewrite neoencoder_set, set_neoencoder_twice. f_equal.
    rewrite Zplus_mod_idemp_l. f_equal. lia.
Qed.

Lemma times_ccw (k : nat) :
  forall s, phase_ok s ->
    final (times k NEO_encoder_ccw s)
    = set_neoencoder ((neoencoder s - 8 * Z.of_nat k) mod 192) s
    /\ value (times k NEO_encoder_ccw s) = Some tt.
Proof.
  induction k as [|k IH]; intros s Hs.
  - cbn [times ret final value]. unfold phase_ok in Hs.
    change (Z.of_nat 0) with 0. rewrite Z.mul_0_r, Z.sub_0_r.
    rewrite Z.mod_small by lia. destruct s; split; reflexivity.
  - cbn [times]. destruct (NEO_encoder_ccw_final s) as [Hf Hv].
    rewrite (final_bind _ _ _ _ Hv), (value_bind _ _ _ _ Hv), Hf.
    rewrite (ccw_step_mod _ Hs).
    assert (Hok : phase_ok (set_neoencoder ((neoencoder s - 8) mod 192) s)).
    { unfold phase_ok. rewrite neoencoder_set. apply Z.mod_pos_bound. lia. }
    destruct (IH _ Hok) as [Hf' Hv']. rewrite Hf', Hv'. split; [|reflexivity].
    rewrite neoencoder_set, set_neoencoder_twice. f_equal.
    rewrite Zminus_mod_idemp_l. f_equal. lia.
Qed.

(** C1. From ring phase 0, [k] clockwise rotations leave the phase at
    [(8k) mod 192], and [k] counter-clockwise rotations after them bring it
    back to 0; both runs return.  The counter-clockwise wrap subtracts 64
    from the 8-bit value that has already wrapped by 256, which is the same
    as adding 192. *)
Theorem ring_phase_cw_then_ccw_round_trip (k : nat) :
  neoencoder (final (times k NEO_encoder_cw init_state))
  = (8 * Z.of_nat k) mod 192
  /\ final ((times k NEO_encoder_cw ;; times k NEO_encoder_ccw) init_state)
     = init_state
  /\ value ((times k NEO_encoder_cw ;; times k NEO_encoder_ccw) init_state)
     = Some tt.
Proof.
  assert (H0 : phase_ok init_state) by (unfold phase_ok, init_state, neoencoder; lia).
  destruct (times_cw k init_state H0) as [Hf Hv].
  split; [rewrite Hf; reflexivity|].
  rewrite (final_bind _ _ _ _ Hv), (value_bind _ _ _ _ Hv), Hf.
  assert (Hok : phase_ok (set_neoencoder
                 ((neoencoder init_state + 8 * Z.of_nat k) mod 192) init_state)).
  { unfold phase_ok. rewrite neoencoder_set. apply Z.mod_pos_bound. lia. }
  destruct (times_ccw k _ Hok) as [Hf' Hv']. rewrite Hf', Hv'.
  split; [|reflexivity].
  rewrite neoencoder_set, set_neoencoder_twice, Zminus_mod_idemp_l.
  change (neoencoder init_state) with 0.
  replace (0 + 8 * Z.of_nat k - 8 * Z.of_nat k) with 0 by lia. reflexivity.
Qed.

(* ================================================================== *)
(** ** Frame rules: what a command leaves alone *)

Lemma preserves_bind {A B : Type} (P : state -> Prop) (m : M A) (f : A -> M B) :
  preserves P m -> (forall a, preserves P (f a)) -> preserves P (bind m f).
Proof.
  intros Hm Hf s Hs. unfold bind.
  destruct (value (m s)) as [a|] eqn:E; cbn [final].
  - apply Hf, Hm, Hs.
  - apply Hm, Hs.
Qed.

Lemma keeps_preserves {X A : Type} (g : state -> X) (m : M A) :
  keeps g m <-> forall x, preserves (fun s => g s = x) m.
Proof.
  split.
  - intros H x s Hs. rewrite H. exact Hs.
  - intros H s. apply (H (g s) s). reflexivity.
Qed.

Lemma keeps_bind {X A B : Type} (g : state -> X) (m : M A) (f : A -> M B) :
  keeps g m -> (forall a, keeps g (f a)) -> keeps g (bind m f).
Proof.
  intros Hm Hf. apply keeps_preserves. intros x.
  apply preserves_bind.
  - apply keeps_preserves, Hm.
  - intros a. apply keeps_preserves, Hf.
Qed.

Lemma keeps_ret {X A : Type} (g : state -> X) (a : A) : keeps g (ret a).
Proof. intros s. reflexivity. Qed.

Lemma keeps_never {X A : Type} (g : state -> X) : keeps g (@never A).
Proof. intros s. reflexivity. Qed.

Lemma keeps_emit {X : Type} (g : state -> X) (e : event) : keeps g (emit e).
Proof. intros s. reflexivity. Qed.

Lemma keeps_gets {X A : Type} (g : state -> X) (f : state -> A) :
  keeps g (gets f).
Proof. intros s. reflexivity. Qed.

Lemma keeps_modify {X : Type} (g : state -> X) (f : state -> state) :
  (forall s, g (f s) = g s) -> keeps g (modify f).
Proof. intros H s. apply H. Qed.

Lemma total_bind {A B : Type} (m : M A) (f : A -> M B) :
  total m -> (forall a, total (f a)) -> total (bind m f).
Proof.
  intros Hm Hf s. destruct (Hm s) as [a Ha].
  rewrite (value_bind _ _ _ _ Ha). apply Hf.
Qed.

Lemma total_ret {A : Type} (a : A) : total (ret a).
Proof. intros s. exists a. reflexivity. Qed.

Lemma total_emit (e : event) : total (emit e).
Proof. intros s. exists tt. reflexivity. Qed.

Lemma total_gets {A : Type} (f : state -> A) : total (gets f).
Proof. intros s. exists (f s). reflexivity. Qed.

Lemma total_modify (f : state -> state) : total (modify f).
Proof. intros s. exists tt. reflexivity. Qed.

Create HintDb fw discriminated.
#[export] Hint Constants Opaque : fw.
#[export] Hint Resolve keeps_ret keeps_never keeps_emit keeps_gets
  total_ret total_emit total_gets total_modify : fw.

(** Walks through the binds and the tests of a command. *)
Ltac walk :=
  repeat first
    [ solve [auto with fw]
    | apply keeps_bind | apply total_bind
    | match goal with
      | |- forall _, _ => intro
      | |- keeps _ (if ?b then _ else _) => destruct b
      | |- total (if ?b then _ else _) => destruct b
      | |- keeps _ (match ?d with Rises _ => _ | StuckLow => _ end) => destruct d
      end
    | apply keeps_modify; intro; reflexivity ].

Ltac unfold_callbacks :=
  unfold KEY1_PRESSED, KEY1_RELEASED, KEY1_HOLD,
         KEY2_PRESSED, KEY2_RELEASED, KEY2_HOLD,
         KEY3_PRESSED, KEY3_RELEASED, KEY3_HOLD,
         KEY4_PRESSED, KEY4_RELEASED, KEY4_HOLD,
         KEY5_PRESSED, KEY5_RELEASED, KEY5_HOLD,
         KEY6_PRESSED, KEY6_RELEASED, KEY6_HOLD,
         ENC_CW_ACTION, ENC_CW_RELEASED, ENC_CCW_ACTION, ENC_CCW_RELEASED,
         ENC_SW_PRESSED, ENC_SW_RELEASED.

Ltac unfold_drivers :=
  unfold NEO_init, NEO_clearAll, NEO_sendByte, NEO_writeHue, NEO_clearPixel,
         NEO_update, CLK_config, DLY_ms, WDT_start, WDT_reset, HID_init,
         CON_press, CON_release, KBD_press, KBD_release, BOOT_now.

Ltac unfold_handlers :=
  unfold handle_key1, handle_key2, handle_key3, handle_key4, handle_key5,
         handle_key6, handle_switch.

Lemma keeps_spin {X : Type} (g : state -> X) (n : nat) : keeps g (spin n).
Proof. induction n as [|n IH]; [apply keeps_ret | exact IH]. Qed.

Lemma total_spin (n : nat) : total (spin n).
Proof. induction n as [|n IH]; [apply total_ret | exact IH]. Qed.

Lemma keeps_light_up {X : Type} (g : state -> X) (i : nat) :
  keeps g (light_up i).
Proof.
  induction i as [|i IH]; cbn [light_up]; unfold_drivers; walk.
Qed.

Lemma total_light_up (i : nat) : total (light_up i).
Proof.
  induction i as [|i IH]; cbn [light_up]; unfold_drivers; walk.
Qed.

Lemma keeps_NEO_encoder_update {X : Type} (g : state -> X) :
  keeps g NEO_encoder_update.
Proof. intros s. destruct (NEO_encoder_update_frame s) as [-> _]. reflexivity. Qed.

Lemma total_NEO_encoder_update : total NEO_encoder_update.
Proof.
  intros s. exists tt. destruct (NEO_encoder_update_frame s) as [_ H]. exact H.
Qed.

Lemma total_NEO_encoder_cw : total NEO_encoder_cw.
Proof. intros s. exists tt. apply NEO_encoder_cw_final. Qed.

Lemma total_NEO_encoder_ccw : total NEO_encoder_ccw.
Proof. intros s. exists tt. apply NEO_encoder_ccw_final. Qed.

#[export] Hint Resolve keeps_spin total_spin keeps_light_up total_light_up
  keeps_NEO_encoder_update total_NEO_encoder_update
  total_NEO_encoder_cw total_NEO_encoder_ccw : fw.

(** The key handlers and the switch handler never touch the ring phase. *)
Lemma keeps_neoencoder_handlers (io : poll) :
  keeps neoencoder (handle_key1 io) /\ keeps neoencoder (handle_key2 io)
  /\ keeps neoencoder (handle_key3 io) /\ keeps neoencoder (handle_key4 io)
  /\ keeps neoencoder (handle_key5 io) /\ keeps neoencoder (handle_key6 io)
  /\ keeps neoencoder (handle_switch io).
Proof.
  unfold_handlers; unfold_callbacks; unfold_drivers.
  repeat split; walk.
Qed.

Lemma total_handlers (io : poll) :
  total (handle_key1 io) /\ total (handle_key2 io) /\ total (handle_key3 io)
  /\ total (handle_key4 io) /\ total (handle_key5 io) /\ total (handle_key6 io)
  /\ total (handle_switch io).
Proof.
  unfold_handlers; unfold_callbacks; unfold_drivers.
  repeat split; walk.
Qed.

Lemma maps_phase_keeps {A : Type} (m : M A) :
  keeps neoencoder m -> maps_phase (fun n => n) m.
Proof. intros H s. apply H. Qed.

Lemma maps_phase_after {A B : Type} (F : Z -> Z) (m : M A) (f : A -> M B) :
  keeps neoencoder m -> total m -> (forall a, maps_phase F (f a)) ->
  maps_phase F (bind m f).
Proof.
  intros Hm Ht Hf s. destruct (Ht s) as [a Ha].
  rewrite (final_bind _ _ _ _ Ha), Hf, Hm. reflexivity.
Qed.

Lemma maps_phase_then {A B : Type} (F : Z -> Z) (m : M A) (f : A -> M B) :
  maps_phase F m -> (forall a, keeps neoencoder (f a)) ->
  maps_phase F (bind m f).
Proof.
  intros Hm Hf s. unfold bind.
  destruct (value (m s)) as [a|]; cbn [final].
  - rewrite Hf. apply Hm.
  - apply Hm.
Qed.

Lemma maps_phase_handle_encoder (io : poll) :
  maps_phase (encoder_phase io) (handle_encoder io).
Proof.
  unfold handle_encoder, encoder_phase.
  destruct (PIN_read io PIN_ENC_A); cbn [negb].
  - apply maps_phase_keeps, keeps_neoencoder_handlers.
  - apply maps_phase_then.
    + destruct (PIN_read io PIN_ENC_B).
      * apply maps_phase_after;
          [unfold_callbacks; unfold_drivers; walk ..|].
        intros _. apply maps_phase_then.
        { intros s. destruct (NEO_encoder_cw_final s) as [-> _]. reflexivity. }
        intros _. unfold_callbacks; unfold_drivers; walk.
      * apply maps_phase_after;
          [unfold_callbacks; unfold_drivers; walk ..|].
        intros _. apply maps_phase_then.
        { intros s. destruct (NEO_encoder_ccw_final s) as [-> _]. reflexivity. }
        intros _. unfold_callbacks; unfold_drivers; walk.
    + intros _. unfold wait_next_detent. walk.
Qed.

Lemma maps_phase_loop_body (io : poll) :
  maps_phase (encoder_phase io) (loop_body io).
Proof.
  unfold loop_body.
  destruct (keeps_neoencoder_handlers io) as (K1 & K2 & K3 & K4 & K5 & K6 & _).
  destruct (total_handlers io) as (T1 & T2 & T3 & T4 & T5 & T6 & _).
  repeat (apply maps_phase_after; [assumption | assumption | intros _]).
  apply maps_phase_then; [apply maps_phase_handle_encoder|].
  intros _. unfold_drivers. walk.
Qed.

Lemma keeps_neoencoder_setup (boot : poll) : keeps neoencoder (setup boot).
Proof. unfold setup. unfold_drivers. walk. Qed.

Lemma cw_step_ok (n : Z) : 0 <= n < 192 -> 0 <= cw_step n < 192.
Proof. intros H. rewrite (cw_step_mod _ H). apply Z.mod_pos_bound. lia. Qed.

Lemma ccw_step_ok (n : Z) : 0 <= n < 192 -> 0 <= ccw_step n < 192.
Proof. intros H. rewrite (ccw_step_mod _ H). apply Z.mod_pos_bound. lia. Qed.

Lemma preserves_run_op (o : op) : preserves phase_ok (run_op o).
Proof.
  intros s Hs. unfold phase_ok in *. destruct o as [| | |boot|io]; cbn [run_op].
  - rewrite keeps_NEO_encoder_update. exact Hs.
  - destruct (NEO_encoder_cw_final s) as [-> _]. rewrite neoencoder_set.
    apply cw_step_ok, Hs.
  - destruct (NEO_encoder_ccw_final s) as [-> _]. rewrite neoencoder_set.
    apply ccw_step_ok, Hs.
  - rewrite keeps_neoencoder_setup. exact Hs.
  - rewrite maps_phase_loop_body. unfold encoder_phase.
    destruct (PIN_read io PIN_ENC_A); [exact Hs|].
    destruct (PIN_read io PIN_ENC_B); [apply cw_step_ok | apply ccw_step_ok];
      exact Hs.
Qed.

Lemma preserves_run_ops (os : list op) : preserves phase_ok (run_ops os).
Proof.
  induction os as [|o os IH]; cbn [run_ops].
  - intros s Hs. exact Hs.
  - apply preserves_bind; [apply preserves_run_op | intros _; exact IH].
Qed.

Lemma preserves_loop (ios : list poll) : preserves phase_ok (loop ios).
Proof.
  induction ios as [|io ios IH]; cbn [loop].
  - intros s Hs. exact Hs.
  - apply preserves_bind; [apply (preserves_run_op (Op_pass io)) | intros _; exact IH].
Qed.

Lemma phase_ok_init : phase_ok init_state.
Proof. unfold phase_ok, init_state, neoencoder. lia. Qed.

(** C8. The ring phase [neoencoder] stays in [0,191]: it starts at 0, every
    operation that has it in scope keeps it in range from any in-range
    state, so it is in range after any sequence of them and at any point of
    a run of [main].  [NEO_encoder_update] and the setup leave it as it is,
    and a pass of the loop changes it only through the rotation taken by
    the encoder handler: not at all while phase A reads high. *)
Theorem neoencoder_stays_in_range :
  phase_ok init_state
  /\ (forall o s, phase_ok s -> phase_ok (final (run_op o s)))
  /\ (forall os, phase_ok (final (run_ops os init_state)))
  /\ (forall boot ios, phase_ok (final (main boot ios init_state)))
  /\ (forall s, final (NEO_encoder_update s) = s)
  /\ (forall boot s, neoencoder (final (setup boot s)) = neoencoder s)
  /\ (forall io s,
        neoencoder (final (loop_body io s))
        = if PIN_read io PIN_ENC_A then neoencoder s
          else if PIN_read io PIN_ENC_B then cw_step (neoencoder s)
               else ccw_step (neoencoder s)).
Proof.
  split; [exact phase_ok_init|].
  split; [intros o s; apply preserves_run_op|].
  split; [intros os; apply preserves_run_ops, phase_ok_init|].
  split.
  { intros boot ios. unfold main. apply preserves_bind.
    - apply (preserves_run_op (Op_setup boot)).
    - intros _. apply preserves_loop.
    - exact phase_ok_init. }
  split; [intros s; apply NEO_encoder_update_frame|].
  split; [intros boot s; apply keeps_neoencoder_setup|].
  intros io s. apply maps_phase_loop_body.
Qed.

(** The range invariant at work: one counter-clockwise step from phase 0. *)
Lemma neoencoder_stays_in_range_witness :
  phase_ok init_state /\ phase_ok (final (run_op Op_ccw init_state)).
Proof.
  split.
  - unfold phase_ok. cbn. lia.
  - apply (proj1 (proj2 neoencoder_stays_in_range) Op_ccw init_state).
    unfold phase_ok. cbn. lia.
Defined.

(* ================================================================== *)
(** ** The key handlers *)

(** Splits on the key, on its stored flag and on its pin level. *)
Ltac by_cases_on_key k io s :=
  destruct s as [k1 k2 k3 k4 k5 k6 sw n];
  destruct k;
  [destruct k1 | destruct k2 | destruct k3
  | destruct k4 | destruct k5 | destruct k6];
  cbn [handle_key key_pin]; unfold_handlers; unfold PIN_read;
  match goal with
  | |- context [level io ?p] => destruct (level io p)
  end;
  try discriminate; try reflexivity.

Lemma handle_key_is_rule (k : key) (io : poll) (s : state) :
  handle_key k io s = key_rule k (PIN_read io (key_pin k)) s.
Proof. by_cases_on_key k io s. Qed.

Lemma handle_key_emitted (k : key) (io : poll) (s : state) :
  emitted (handle_key k io s)
  = key_rule_trace k (PIN_read io (key_pin k)) (key_last k s).
Proof. by_cases_on_key k io s. Qed.

Lemma handle_key_final (k : key) (io : poll) (s : state) :
  final (handle_key k io s) = set_key_last k (negb (PIN_read io (key_pin k))) s.
Proof. by_cases_on_key k io s. Qed.

Lemma handle_key_value (k : key) (io : poll) (s : state) :
  value (handle_key k io s) = Some tt.
Proof. by_cases_on_key k io s. Qed.

(** C3. On every change of a key, press or release, the handler first
    issues the pixel command (write hue or clear), then the flush
    [NEO_update], and only then enters the macro function; the macro function
    itself issues no LED command. *)
Theorem led_update_precedes_callback (k : key) (io : poll) (s : state) :
  neqb (negb (PIN_read io (key_pin k))) (key_last k s) = true ->
  emitted (handle_key k io s)
  = key_led k (negb (PIN_read io (key_pin k)))
      :: Neo_update
      :: emitted (key_callback k (negb (PIN_read io (key_pin k)))
                    (final (handle_key k io s)))
  /\ hd_error (emitted (key_callback k (negb (PIN_read io (key_pin k)))
                          (final (handle_key k io s))))
     = Some (Fire (key_hook k (negb (PIN_read io (key_pin k)))))
  /\ forallb (fun e => negb (is_led e))
       (emitted (key_callback k (negb (PIN_read io (key_pin k)))
                   (final (handle_key k io s)))) = true.
Proof.
  revert s. unfold PIN_read. intros s.
  destruct s as [k1 k2 k3 k4 k5 k6 sw n];
  destruct k;
  [destruct k1 | destruct k2 | destruct k3
  | destruct k4 | destruct k5 | destruct k6];
  cbn [handle_key key_pin key_last key1last key2last key3last key4last
       key5last key6last];
  unfold_handlers; unfold PIN_read;
  match goal with
  | |- context [level io ?p] => destruct (level io p)
  end;
  intros H; try discriminate H; repeat split; reflexivity.
Qed.

(** A press of key 3 and a release of key 5 as instances. *)
Lemma led_update_precedes_callback_witness :
  emitted (handle_key Key3 (with_pin PIN_KEY3 false idle) init_state)
  = [Neo_writeHue 2 64 2; Neo_update; Fire (Pressed Key3);
     Con_press CON_MEDIA_PAUSE]
  /\ emitted (handle_key Key5 idle (set_key5last true init_state))
     = [Neo_clearPixel 4; Neo_update; Fire (Released Key5);
        Kbd_release "e"%char].
Proof.
  split.
  - exact (proj1 (led_update_precedes_callback Key3
                    (with_pin PIN_KEY3 false idle) init_state eq_refl)).
  - exact (proj1 (led_update_precedes_callback Key5 idle
                    (set_key5last true init_state) eq_refl)).
Defined.

(** C10. A key that reads released while its stored flag says released is
    left alone: the handler makes no call at all (no LED command, no macro
    function), returns, and leaves the whole state as it found it. *)
Theorem idle_key_handler_does_nothing (k : key) (io : poll) (s : state) :
  negb (PIN_read io (key_pin k)) = key_last k s ->
  key_last k s = false ->
  handle_key k io s = mkOutcome [] s (Some tt).
Proof.
  intros Hsame Hlast. rewrite Hlast in Hsame. revert Hsame Hlast.
  by_cases_on_key k io s.
Qed.

Lemma idle_key_handler_does_nothing_witness :
  handle_key Key4 idle init_state = mkOutcome [] init_state (Some tt).
Proof.
  apply (idle_key_handler_does_nothing Key4 idle init_state); reflexivity.
Defined.

(* ================================================================== *)
(** ** Views: what one part of the loop body shows of another *)

Lemma silent_bind {A B : Type} (p : event -> bool) (m : M A) (f : A -> M B) :
  silent p m -> (forall a, silent p (f a)) -> silent p (bind m f).
Proof.
  intros Hm Hf s. unfold bind.
  destruct (value (m s)) as [a|]; cbn [emitted].
  - rewrite filter_app, Hm, Hf. reflexivity.
  - apply Hm.
Qed.

Lemma silent_ret {A : Type} (p : event -> bool) (a : A) : silent p (ret a).
Proof. intros s. reflexivity. Qed.

Lemma silent_never {A : Type} (p : event -> bool) : silent p (@never A).
Proof. intros s. reflexivity. Qed.

Lemma silent_gets {A : Type} (p : event -> bool) (f : state -> A) :
  silent p (gets f).
Proof. intros s. reflexivity. Qed.

Lemma silent_modify (p : event -> bool) (f : state -> state) :
  silent p (modify f).
Proof. intros s. reflexivity. Qed.

Lemma silent_emit (p : event -> bool) (e : event) :
  p e = false -> silent p (emit e).
Proof. intros H s. cbn. rewrite H. reflexivity. Qed.

Lemma silent_spin (p : event -> bool) (n : nat) : silent p (spin n).
Proof. induction n as [|n IH]; [apply silent_ret | exact IH]. Qed.

#[export] Hint Resolve silent_ret silent_never silent_gets silent_modify
  silent_spin : fw.

Lemma obs_skip {X A B : Type} (p : event -> bool) (g : state -> X)
  (m : M A) (f : A -> M B) (s : state) (a : A) :
  silent p m -> value (m s) = Some a ->
  obs p g (bind m f s) = obs p g (f a (final (m s))).
Proof.
  intros Hs Ha. unfold obs. rewrite (bind_some _ _ _ _ Ha). cbn [emitted final].
  rewrite filter_app, Hs. reflexivity.
Qed.

Lemma obs_stop {X A B : Type} (p : event -> bool) (g : state -> X)
  (m : M A) (f : A -> M B) (s : state) :
  (forall a, silent p (f a)) -> (forall a, keeps g (f a)) ->
  obs p g (bind m f s) = obs p g (m s).
Proof.
  intros Hs Hk. unfold obs, bind.
  destruct (value (m s)) as [a|]; cbn [emitted final]; [|reflexivity].
  rewrite filter_app, Hs, Hk, app_nil_r. reflexivity.
Qed.

(** Extends [walk] to [silent] goals; [emit] goals are decided by
    evaluating the selector. *)
Ltac hush :=
  repeat first
    [ solve [auto with fw]
    | apply silent_bind | apply keeps_bind | apply total_bind
    | match goal with
      | |- forall _, _ => intro
      | |- silent _ (if ?b then _ else _) => destruct b
      | |- keeps _ (if ?b then _ else _) => destruct b
      | |- total (if ?b then _ else _) => destruct b
      | |- silent _ (match ?d with Rises _ => _ | StuckLow => _ end) => destruct d
      | |- keeps _ (match ?d with Rises _ => _ | StuckLow => _ end) => destruct d
      end
    | apply silent_emit; reflexivity
    | apply keeps_modify; intro; reflexivity ].

Lemma off_ring_about_key (k : key) : off_ring (about_key k).
Proof.
  split; [reflexivity|]. intros i j b Hi. cbn [about_key].
  apply Z.eqb_neq. destruct k; cbn [key_pixel]; lia.
Qed.

Lemma off_ring_about_switch : off_ring about_switch.
Proof. split; [reflexivity|]. intros; reflexivity. Qed.

Lemma silent_ring_loop (p : event -> bool) (fuel : nat) :
  off_ring p -> forall i j, 6 <= i -> silent p (ring_loop fuel i j).
Proof.
  intros [_ Hp]. induction fuel as [|fuel IH]; intros i j Hi; cbn [ring_loop].
  - apply silent_ret.
  - destruct (i <? 18) eqn:E; [|apply silent_ret].
    apply Z.ltb_lt in E. apply silent_bind.
    + apply silent_emit, Hp, Hi.
    + intros _. apply IH. unfold u8. rewrite Z.mod_small; lia.
Qed.

Lemma silent_NEO_encoder_update (p : event -> bool) :
  off_ring p -> silent p NEO_encoder_update.
Proof.
  intros Hp. unfold NEO_encoder_update.
  apply silent_bind; [apply silent_gets|]. intros j.
  apply silent_bind; [apply silent_ring_loop; [exact Hp | lia]|].
  intros _. apply silent_emit, Hp.
Qed.

Lemma silent_NEO_encoder_cw (p : event -> bool) :
  off_ring p -> silent p NEO_encoder_cw.
Proof.
  intros Hp. pose proof (silent_NEO_encoder_update p Hp).
  unfold NEO_encoder_cw. hush.
Qed.

Lemma silent_NEO_encoder_ccw (p : event -> bool) :
  off_ring p -> silent p NEO_encoder_ccw.
Proof.
  intros Hp. pose proof (silent_NEO_encoder_update p Hp).
  unfold NEO_encoder_ccw. hush.
Qed.

(** No handler of another key shows in the view of key [k]. *)
Lemma other_key_invisible (j k : key) (io : poll) :
  key_eqb j k = false ->
  silent (about_key k) (handle_key j io) /\ keeps (key_last k) (handle_key j io).
Proof.
  intros H.
  destruct j, k; try discriminate H; cbn [handle_key];
    unfold_handlers; unfold_callbacks; unfold_drivers; split; hush.
Qed.

(** The encoder handler and the end of the loop body do not show either. *)
Lemma encoder_invisible_to_key (k : key) (io : poll) :
  silent (about_key k) (handle_encoder io ;; DLY_ms 1 ;; WDT_reset)
  /\ keeps (key_last k) (handle_encoder io ;; DLY_ms 1 ;; WDT_reset).
Proof.
  pose proof (silent_NEO_encoder_cw _ (off_ring_about_key k)) as Hcw.
  pose proof (silent_NEO_encoder_ccw _ (off_ring_about_key k)) as Hccw.
  assert (Kcw : keeps (key_last k) NEO_encoder_cw).
  { intros s. destruct (NEO_encoder_cw_final s) as [-> _].
    destruct k; reflexivity. }
  assert (Kccw : keeps (key_last k) NEO_encoder_ccw).
  { intros s. destruct (NEO_encoder_ccw_final s) as [-> _].
    destruct k; reflexivity. }
  unfold handle_encoder, wait_next_detent, handle_switch.
  unfold_callbacks; unfold_drivers.
  split; destruct k; hush.
Qed.

Lemma key_last_set (k : key) (b : bool) (s : state) :
  key_last k (set_key_last k b s) = b.
Proof. destruct k; reflexivity. Qed.

Lemma loop_body_handle_key :
  loop_body = fun io =>
    handle_key Key1 io ;; handle_key Key2 io ;; handle_key Key3 io ;;
    handle_key Key4 io ;; handle_key Key5 io ;; handle_key Key6 io ;;
    handle_encoder io ;; DLY_ms 1 ;; WDT_reset.
Proof. reflexivity. Qed.

Ltac invisible_rest :=
  intros _;
  repeat first
    [ apply encoder_invisible_to_key
    | apply silent_bind; [ apply other_key_invisible; reflexivity | intros _ ]
    | apply keeps_bind; [ apply other_key_invisible; reflexivity | intros _ ] ].

(** What a whole pass of the loop shows of key [k] is what the handler of
    [k] shows, which depends on the pin and the stored flag of [k] only. *)
Lemma loop_body_key_view (k : key) (io : poll) (s : state) :
  obs (about_key k) (key_last k) (loop_body io s)
  = (filter (about_key k)
       (key_rule_trace k (PIN_read io (key_pin k)) (key_last k s)),
     negb (PIN_read io (key_pin k))).
Proof.
  rewrite loop_body_handle_key.
  assert (Hskip : forall j (rest : M unit) s0,
             key_eqb j k = false ->
             obs (about_key k) (key_last k) ((handle_key j io ;; rest) s0)
             = obs (about_key k) (key_last k)
                   (rest (final (handle_key j io s0)))
               /\ key_last k (final (handle_key j io s0)) = key_last k s0).
  { intros j rest s0 Hj. split.
    - apply (obs_skip (about_key k) (key_last k) (handle_key j io)
               (fun _ => rest) s0 tt);
        [apply other_key_invisible, Hj | apply handle_key_value].
    - apply other_key_invisible, Hj. }
  assert (Hown : forall s0,
             obs (about_key k) (key_last k) (handle_key k io s0)
             = (filter (about_key k)
                  (key_rule_trace k (PIN_read io (key_pin k)) (key_last k s0)),
                negb (PIN_read io (key_pin k)))).
  { intros s0. unfold obs.
    rewrite handle_key_emitted, handle_key_final, key_last_set. reflexivity. }
  destruct k;
    repeat match goal with
    | |- obs _ (key_last ?k) ((handle_key ?j io ;; ?rest) ?s0) = _ =>
        destruct (Hskip j rest s0 eq_refl) as [-> <-]
    end;
    (rewrite obs_stop; [apply Hown | invisible_rest ..]).
Qed.

Lemma key_rule_trace_events (k : key) (rawLevel lastPressed : bool) :
  key_rule_trace k rawLevel lastPressed = key_events k rawLevel lastPressed.
Proof. destruct k, rawLevel, lastPressed; reflexivity. Qed.

Lemma key_events_shown (k : key) (rawLevel lastPressed : bool) :
  filter (about_key k) (key_events k rawLevel lastPressed)
  = key_shown k rawLevel lastPressed.
Proof. destruct k, rawLevel, lastPressed; reflexivity. Qed.

(** C4. In every loop iteration each of the six keys is handled by the
    transition rule of the specification at its own pin, stored flag, pixel,
    hue and macro functions.  The logical state is the negated pin level.
    When it differs from the stored flag the flag takes it, and either the
    pixel of the key is written with the key's hue at the key brightness,
    flushed, and the PRESSED event of the key fires, or the pixel is
    cleared, flushed, and the RELEASED event of the key fires; the calls
    are given one by one.  The handler always returns, what it calls
    depends on its own pin and flag only, and it changes no flag but its
    own.  In the whole pass of the loop, whatever the other keys, the
    encoder and the switch do and whether the pass ends or not, the calls
    that name the key are exactly those of its rule, and the flag of the
    key ends as the logical state just read: there is no interaction
    between keys. *)
Theorem key_handlers_follow_transition_rule (k : key) (io : poll) (s : state) :
  handle_key k io s = key_rule k (PIN_read io (key_pin k)) s
  /\ emitted (handle_key k io s)
     = key_events k (PIN_read io (key_pin k)) (key_last k s)
  /\ final (handle_key k io s)
     = set_key_last k (negb (PIN_read io (key_pin k))) s
  /\ value (handle_key k io s) = Some tt
  /\ (forall j, key_eqb j k = false ->
        key_last j (final (handle_key k io s)) = key_last j s)
  /\ filter (about_key k) (emitted (loop_body io s))
     = key_shown k (PIN_read io (key_pin k)) (key_last k s)
  /\ key_last k (final (loop_body io s)) = negb (PIN_read io (key_pin k)).
Proof.
  split; [apply handle_key_is_rule|].
  split; [rewrite handle_key_emitted; apply key_rule_trace_events|].
  split; [apply handle_key_final|].
  split; [apply handle_key_value|].
  split.
  { intros j Hj. rewrite handle_key_final.
    destruct s as [k1 k2 k3 k4 k5 k6 sw n].
    destruct j, k; try discriminate Hj; reflexivity. }
  pose proof (loop_body_key_view k io s) as V. unfold obs in V.
  injection V as Vt Vs.
  split; [|exact Vs].
  rewrite Vt, key_rule_trace_events. apply key_events_shown.
Qed.

Lemma total_handle_encoder (io : poll) :
  settles io = true -> total (handle_encoder io).
Proof.
  unfold settles, handle_encoder, wait_next_detent. intros H.
  destruct (total_handlers io) as (_ & _ & _ & _ & _ & _ & Tsw).
  destruct (PIN_read io PIN_ENC_A); cbn [negb]; [exact Tsw|].
  destruct (detent io); [|discriminate H].
  unfold_callbacks; unfold_drivers. walk.
Qed.

Lemma loop_body_value (io : poll) (s : state) :
  settles io = true -> value (loop_body io s) = Some tt.
Proof.
  intros H.
  assert (T : total (loop_body io)).
  { unfold loop_body.
    destruct (total_handlers io) as (T1 & T2 & T3 & T4 & T5 & T6 & _).
    pose proof (total_handle_encoder io H).
    unfold_drivers. walk. }
  destruct (T s) as [[] Hv]. exact Hv.
Qed.

Lemma loop_key_view (k : key) (ios : list poll) :
  forall s, forallb settles ios = true ->
    filter (about_key k) (emitted (loop ios s))
    = key_view k (key_levels k ios) (key_last k s).
Proof.
  induction ios as [|io ios IH]; intros s H; [reflexivity|].
  cbn [forallb] in H. apply andb_prop in H. destruct H as [Hio Hios].
  cbn [loop key_levels map key_view].
  rewrite (emitted_bind _ _ _ _ (loop_body_value io s Hio)), filter_app.
  pose proof (loop_body_key_view k io s) as V. unfold obs in V.
  injection V as Vt Vs. rewrite Vt, (IH _ Hios), Vs. reflexivity.
Qed.

Lemma passes_key_view (k : key) (ios : list poll) :
  forall s,
    filter (about_key k) (emitted (passes (handle_key k) ios s))
    = key_view k (key_levels k ios) (key_last k s).
Proof.
  induction ios as [|io ios IH]; intros s; [reflexivity|].
  cbn [passes key_levels map key_view].
  rewrite (emitted_bind _ _ _ _ (handle_key_value k io s)), filter_app.
  rewrite handle_key_emitted, IH, handle_key_final, key_last_set.
  reflexivity.
Qed.

Lemma filter_refine {A : Type} (p q : A -> bool) (l : list A) :
  (forall a, q a = true -> p a = true) ->
  filter q (filter p l) = filter q l.
Proof.
  intros H. induction l as [|a l IH]; [reflexivity|]. cbn [filter].
  destruct (p a) eqn:Ep; cbn [filter].
  - rewrite IH. reflexivity.
  - destruct (q a) eqn:Eq; [|exact IH].
    rewrite (H a Eq) in Ep. discriminate Ep.
Qed.

Lemma count_fire_about_key (k : key) (h : hook) (t : trace) :
  hook_of_key k h ->
  count_fire h (filter (about_key k) t) = count_fire h t.
Proof.
  intros Hh. unfold count_fire. rewrite filter_refine; [reflexivity|].
  intros e. destruct Hh as [-> | [-> | ->]];
    destruct e as [| | | | | | | | | | | | | | | |h']; try discriminate;
    destruct h' as [j|j|j| | | | | |]; try discriminate;
    destruct j, k; try discriminate; reflexivity.
Qed.

Lemma count_fire_app (h : hook) (t u : trace) :
  count_fire h (t ++ u) = (count_fire h t + count_fire h u)%nat.
Proof. unfold count_fire. rewrite filter_app, length_app. reflexivity. Qed.

Lemma key_counts_view (k : key) (t : trace) :
  key_counts k (filter (about_key k) t) = key_counts k t.
Proof.
  unfold key_counts.
  rewrite !count_fire_about_key; [reflexivity | unfold hook_of_key; auto ..].
Qed.

Lemma key_counts_held (k : key) (n : nat) :
  key_counts k (key_view k (repeat false n) true) = (0, n, 0)%nat.
Proof.
  unfold key_counts.
  induction n as [|n IH]; [reflexivity|].
  cbn [repeat key_view negb]. rewrite !count_fire_app.
  injection IH as -> -> ->. destruct k; reflexivity.
Qed.

Lemma key_counts_held_then_released (k : key) (n : nat) :
  key_counts k (key_view k (repeat false n ++ [true]) true) = (0, n, 1)%nat.
Proof.
  unfold key_counts.
  induction n as [|n IH].
  - destruct k; reflexivity.
  - cbn [repeat app key_view negb]. rewrite !count_fire_app.
    injection IH as -> -> ->. destruct k; reflexivity.
Qed.

Lemma key_counts_cycle (k : key) (n : nat) :
  key_counts k (key_view k (repeat false (S n) ++ [true]) false)
  = (1, n, 1)%nat.
Proof.
  pose proof (key_counts_held_then_released k n) as H.
  unfold key_counts in *.
  cbn [repeat app key_view negb]. rewrite !count_fire_app.
  injection H as -> -> ->. destruct k; reflexivity.
Qed.

(** C5. For every key, in the firmware loop as in the key's handler run
    alone: from the released state, the pin reading low on [1 + n] passes in
    a row and then high gives exactly one PRESSED, [n] HELD and one RELEASED
    (no HELD at all when the key is down at one poll only); and while the
    key is held, [n] further passes with the pin low give exactly [n] HELD
    and neither PRESSED nor RELEASED.  The loop statements are for passes
    whose encoder wait ends. *)
Theorem key_press_hold_release_counts (k : key) (n : nat) (ios : list poll)
  (s : state) :
  (key_last k s = false ->
   key_levels k ios = repeat false (S n) ++ [true] ->
   key_counts k (emitted (passes (handle_key k) ios s)) = (1, n, 1)%nat
   /\ (forallb settles ios = true ->
       key_counts k (emitted (loop ios s)) = (1, n, 1)%nat))
  /\ (key_last k s = true ->
      key_levels k ios = repeat false n ->
      key_counts k (emitted (passes (handle_key k) ios s)) = (0, n, 0)%nat
      /\ (forallb settles ios = true ->
          key_counts k (emitted (loop ios s)) = (0, n, 0)%nat)).
Proof.
  split; intros Hlast Hraws; (split; [|intros Hset]);
    rewrite <- key_counts_view;
    rewrite ?passes_key_view, ?(loop_key_view k ios s Hset), Hraws, Hlast.
  - apply key_counts_cycle.
  - apply key_counts_cycle.
  - apply key_counts_held.
  - apply key_counts_held.
Qed.

(** Key 2 pressed, held over two more passes and released; then two passes
    of key 6 held down. *)
Lemma key_press_hold_release_counts_witness :
  key_counts Key2
    (emitted (loop [with_pin PIN_KEY2 false idle; with_pin PIN_KEY2 false idle;
                    with_pin PIN_KEY2 false idle; idle] init_state))
  = (1, 2, 1)%nat
  /\ key_counts Key6
       (emitted (loop [with_pin PIN_KEY6 false idle;
                       with_pin PIN_KEY6 false idle]
                   (set_key6last true init_state)))
     = (0, 2, 0)%nat.
Proof.
  split.
  - exact (proj2 (proj1 (key_press_hold_release_counts Key2 2
                   [with_pin PIN_KEY2 false idle; with_pin PIN_KEY2 false idle;
                    with_pin PIN_KEY2 false idle; idle] init_state)
                   eq_refl eq_refl) eq_refl).
  - exact (proj2 (proj2 (key_press_hold_release_counts Key6 2
                   [with_pin PIN_KEY6 false idle; with_pin PIN_KEY6 false idle]
                   (set_key6last true init_state))
                   eq_refl eq_refl) eq_refl).
Defined.

(* ------------------------------------------------------------------ *)
(** *** The press and release of key 1 *)

(** C2, as the claim orders the calls: PRESSED, then the pixel write, then
    RELEASED, then the pixel clear.  The firmware started with everything at
    rest, key 1 read low in the first pass and high in the second: its calls
    do not come in that order. *)
Lemma key1_claimed_order_fails :
  in_order [Fire (Pressed Key1); Neo_writeHue 0 0 2;
            Fire (Released Key1); Neo_clearPixel 0]
    (emitted (main idle [with_pin PIN_KEY1 false idle; idle] init_state))
  = false.
Proof. vm_compute. reflexivity. Qed.

(** In the same run the calls come with each LED update before its macro
    function. *)
Example key1_actual_order_holds :
  in_order [Neo_writeHue 0 0 2; Fire (Pressed Key1);
            Neo_clearPixel 0; Fire (Released Key1)]
    (emitted (main idle [with_pin PIN_KEY1 false idle; idle] init_state))
  = true.
Proof. vm_compute. reflexivity. Qed.

(** C2, amended.  Key 1 read low in one pass and high in the next, with the
    stored flag released: the handler of key 1 writes pixel 0 with hue 0 at
    brightness 2 and flushes, then fires PRESSED; in the next pass it clears
    pixel 0 and flushes, then fires RELEASED.  In the loop the calls about
    key 1 come in this order whatever the other inputs are. *)
Theorem key1_press_release_sequence (io1 io2 : poll) (s : state) :
  key1last s = false ->
  PIN_read io1 PIN_KEY1 = false ->
  PIN_read io2 PIN_KEY1 = true ->
  emitted (passes handle_key1 [io1; io2] s)
  = [Neo_writeHue 0 0 2; Neo_update; Fire (Pressed Key1);
     Con_press CON_MEDIA_STOP;
     Neo_clearPixel 0; Neo_update; Fire (Released Key1); Con_release]
  /\ (forallb settles [io1; io2] = true ->
      filter (about_key Key1) (emitted (loop [io1; io2] s))
      = [Neo_writeHue 0 0 2; Fire (Pressed Key1);
         Neo_clearPixel 0; Fire (Released Key1)]).
Proof.
  intros Hlast H1 H2. split.
  - change handle_key1 with (handle_key Key1). cbn [passes].
    rewrite (emitted_bind _ _ _ _ (handle_key_value Key1 io1 s)).
    rewrite (emitted_bind _ _ _ _ (handle_key_value Key1 io2 _)).
    rewrite !handle_key_emitted, handle_key_final, key_last_set.
    cbn [key_pin key_last]. rewrite H1, H2, Hlast. reflexivity.
  - intros Hset. rewrite (loop_key_view Key1 _ s Hset).
    cbn [key_levels map key_pin key_last]. rewrite H1, H2, Hlast. reflexivity.
Qed.

Lemma key1_press_release_sequence_witness :
  emitted (passes handle_key1 [with_pin PIN_KEY1 false idle; idle] init_state)
  = [Neo_writeHue 0 0 2; Neo_update; Fire (Pressed Key1);
     Con_press CON_MEDIA_STOP;
     Neo_clearPixel 0; Neo_update; Fire (Released Key1); Con_release].
Proof.
  exact (proj1 (key1_press_release_sequence (with_pin PIN_KEY1 false idle) idle
                  init_state eq_refl eq_refl eq_refl)).
Defined.

(* ================================================================== *)
(** ** The encoder switch *)

Lemma handle_switch_run (io : poll) (s : state) :
  handle_switch io s
  = mkOutcome
      (switch_rule_trace (isSwitchPressed s) (PIN_read io PIN_ENC_SW))
      (set_isSwitchPressed (negb (PIN_read io PIN_ENC_SW)) s)
      (Some tt).
Proof.
  destruct s as [k1 k2 k3 k4 k5 k6 sw n]. unfold handle_switch, PIN_read.
  destruct sw, (level io PIN_ENC_SW); reflexivity.
Qed.

(** A rotation shows nothing of the switch. *)
Lemma rotation_invisible_to_switch (io : poll) :
  PIN_read io PIN_ENC_A = false ->
  silent about_switch (handle_encoder io)
  /\ keeps isSwitchPressed (handle_encoder io).
Proof.
  intros HA. unfold handle_encoder. rewrite HA. cbn [negb].
  pose proof (silent_NEO_encoder_cw _ off_ring_about_switch) as Hcw.
  pose proof (silent_NEO_encoder_ccw _ off_ring_about_switch) as Hccw.
  assert (Kcw : keeps isSwitchPressed NEO_encoder_cw).
  { intros s. destruct (NEO_encoder_cw_final s) as [-> _]. reflexivity. }
  assert (Kccw : keeps isSwitchPressed NEO_encoder_ccw).
  { intros s. destruct (NEO_encoder_ccw_final s) as [-> _]. reflexivity. }
  unfold wait_next_detent. unfold_callbacks; unfold_drivers.
  split; hush.
Qed.

Lemma key_invisible_to_switch (k : key) (io : poll) :
  silent about_switch (handle_key k io)
  /\ keeps isSwitchPressed (handle_key k io).
Proof.
  destruct k; cbn [handle_key]; unfold_handlers; unfold_callbacks;
    unfold_drivers; split; hush.
Qed.

(** What a whole pass of the loop shows of the switch. *)
Lemma loop_body_switch_view (io : poll) (s : state) :
  obs about_switch isSwitchPressed (loop_body io s)
  = obs about_switch isSwitchPressed (handle_encoder io s).
Proof.
  rewrite loop_body_handle_key.
  assert (Hskip : forall j (rest : M unit) s0,
             obs about_switch isSwitchPressed ((handle_key j io ;; rest) s0)
             = obs about_switch isSwitchPressed
                   (rest (final (handle_key j io s0)))
               /\ isSwitchPressed (final (handle_key j io s0))
                  = isSwitchPressed s0).
  { intros j rest s0. split.
    - apply (obs_skip about_switch isSwitchPressed (handle_key j io)
               (fun _ => rest) s0 tt);
        [apply key_invisible_to_switch | apply handle_key_value].
    - apply key_invisible_to_switch. }
  assert (Hdep : forall s0 s1,
             isSwitchPressed s0 = isSwitchPressed s1 ->
             obs about_switch isSwitchPressed (handle_encoder io s0)
             = obs about_switch isSwitchPressed (handle_encoder io s1)).
  { intros s0 s1 E. unfold obs, handle_encoder.
    destruct (PIN_read io PIN_ENC_A) eqn:HA; cbn [negb].
    - rewrite !handle_switch_run. cbn [emitted final]. rewrite E. reflexivity.
    - destruct (rotation_invisible_to_switch io HA) as [Hs Hk].
      unfold handle_encoder in Hs, Hk. rewrite HA in Hs, Hk. cbn [negb] in Hs, Hk.
      rewrite !Hs, !Hk, E. reflexivity. }
  repeat match goal with
  | |- obs _ _ ((handle_key ?j io ;; ?rest) ?s0) = _ =>
      let E := fresh "E" in
      destruct (Hskip j rest s0) as [-> E]
  end.
  rewrite obs_stop; [|intros _; unfold_drivers; hush ..].
  apply Hdep. congruence.
Qed.

(** C7. The encoder switch is tested only in a pass where phase A reads
    high, against the stored flag: ENC_SW_PRESSED is entered exactly when
    the flag is clear and the pin reads low, and the flag is then set;
    ENC_SW_RELEASED exactly when the flag is set and the pin reads high,
    and the flag is then cleared; otherwise nothing is called, so a switch
    held down gives no further call.  In a pass where phase A reads low the
    switch handler is not run: no switch call, flag unchanged.  With the
    switch low and phase A high over three passes, from a clear flag,
    ENC_SW_PRESSED is entered once, in the first pass. *)
Theorem encoder_switch_level_compare (io : poll) (s : state) :
  (PIN_read io PIN_ENC_A = true ->
     handle_encoder io s
     = mkOutcome
         (if negb (isSwitchPressed s) && negb (PIN_read io PIN_ENC_SW)
          then [Fire EncSwPressed; Con_press CON_VOL_MUTE]
          else if isSwitchPressed s && PIN_read io PIN_ENC_SW
               then [Fire EncSwReleased; Con_release]
               else [])
         (set_isSwitchPressed (negb (PIN_read io PIN_ENC_SW)) s)
         (Some tt))
  /\ (PIN_read io PIN_ENC_A = false ->
        filter about_switch (emitted (handle_encoder io s)) = []
        /\ isSwitchPressed (final (handle_encoder io s)) = isSwitchPressed s)
  /\ obs about_switch isSwitchPressed (loop_body io s)
     = obs about_switch isSwitchPressed (handle_encoder io s)
  /\ (forall io2 io3,
        isSwitchPressed s = false ->
        Forall (fun i => PIN_read i PIN_ENC_A = true
                         /\ PIN_read i PIN_ENC_SW = false) [io; io2; io3] ->
        count_fire EncSwPressed (emitted (loop_body io s)) = 1%nat
        /\ count_fire EncSwPressed
             (emitted (loop [io2; io3] (final (loop_body io s)))) = 0%nat
        /\ count_fire EncSwPressed (emitted (loop [io; io2; io3] s)) = 1%nat
        /\ count_fire EncSwReleased (emitted (loop [io; io2; io3] s)) = 0%nat).
Proof.
  split; [|split; [|split]].
  - intros HA. unfold handle_encoder. rewrite HA. cbn [negb].
    apply handle_switch_run.
  - intros HA. destruct (rotation_invisible_to_switch io HA) as [Hs Hk].
    split; [apply Hs | apply Hk].
  - apply loop_body_switch_view.
  - intros io2 io3 Hflag Hall.
    inversion Hall as [|? ? [A1 S1] Hall2]; subst.
    inversion Hall2 as [|? ? [A2 S2] Hall3]; subst.
    inversion Hall3 as [|? ? [A3 S3] _]; subst.
    assert (Hview : forall i s0,
               PIN_read i PIN_ENC_A = true -> PIN_read i PIN_ENC_SW = false ->
               filter about_switch (emitted (loop_body i s0))
               = (if isSwitchPressed s0 then [] else [Fire EncSwPressed])
               /\ isSwitchPressed (final (loop_body i s0)) = true
               /\ value (loop_body i s0) = Some tt).
    { intros i s0 HA HS.
      pose proof (loop_body_switch_view i s0) as V. unfold obs in V.
      unfold handle_encoder in V. rewrite HA in V. cbn [negb] in V.
      rewrite handle_switch_run in V. cbn [emitted final] in V.
      rewrite HS in V. injection V as Vt Vs.
      split; [|split].
      - rewrite Vt. destruct (isSwitchPressed s0); reflexivity.
      - rewrite Vs. reflexivity.
      - apply loop_body_value. unfold settles. rewrite HA. reflexivity. }
    assert (Hcount : forall h t,
               h = EncSwPressed \/ h = EncSwReleased ->
               count_fire h t = count_fire h (filter about_switch t)).
    { intros h t Hh. unfold count_fire. rewrite filter_refine; [reflexivity|].
      intros e. destruct Hh as [-> | ->];
        destruct e as [| | | | | | | | | | | | | | | |h']; try discriminate;
        destruct h'; try discriminate; reflexivity. }
    destruct (Hview io s A1 S1) as (T1 & F1 & V1).
    destruct (Hview io2 (final (loop_body io s)) A2 S2) as (T2 & F2 & V2).
    destruct (Hview io3 (final (loop_body io2 (final (loop_body io s)))) A3 S3)
      as (T3 & F3 & V3).
    rewrite Hflag in T1. rewrite F1 in T2. rewrite F2 in T3.
    assert (L23 : filter about_switch
                    (emitted (loop [io2; io3] (final (loop_body io s)))) = []).
    { cbn [loop]. rewrite (emitted_bind _ _ _ _ V2), filter_app, T2.
      rewrite (emitted_bind _ _ _ _ V3), filter_app, T3. reflexivity. }
    assert (L123 : filter about_switch (emitted (loop [io; io2; io3] s))
                   = [Fire EncSwPressed]).
    { change (loop [io; io2; io3]) with (loop_body io ;; loop [io2; io3]).
      rewrite (emitted_bind _ _ _ _ V1), filter_app, T1, L23. reflexivity. }
    repeat split.
    + rewrite Hcount, T1 by auto. reflexivity.
    + rewrite Hcount, L23 by auto. reflexivity.
    + rewrite Hcount, L123 by auto. reflexivity.
    + rewrite Hcount, L123 by auto. reflexivity.
Qed.

(** Three passes with the switch held down, from the initial state. *)
Lemma encoder_switch_level_compare_witness :
  count_fire EncSwPressed
    (emitted (loop [with_pin PIN_ENC_SW false idle;
                    with_pin PIN_ENC_SW false idle;
                    with_pin PIN_ENC_SW false idle] init_state)) = 1%nat
  /\ count_fire EncSwPressed
       (emitted (loop_body (with_pin PIN_ENC_SW false idle) init_state))
     = 1%nat.
Proof.
  assert (H : Forall (fun i => PIN_read i PIN_ENC_A = true
                               /\ PIN_read i PIN_ENC_SW = false)
                [with_pin PIN_ENC_SW false idle;
                 with_pin PIN_ENC_SW false idle;
                 with_pin PIN_ENC_SW false idle]).
  { repeat constructor. }
  destruct (proj2 (proj2 (proj2
              (encoder_switch_level_compare (with_pin PIN_ENC_SW false idle)
                 init_state)))
              (with_pin PIN_ENC_SW false idle) (with_pin PIN_ENC_SW false idle)
              eq_refl H) as (H1 & _ & H3 & _).
  split; [exact H3 | exact H1].
Defined.

(* ================================================================== *)
(** ** The rotary encoder *)

Lemma hue_step (j : Z) :
  0 <= j < 192 ->
  (if 192 <=? u8 (j + 16) then u8 (u8 (j + 16) - 192) else u8 (j + 16))
  = (j + 16) mod 192.
Proof.
  intros H. unfold u8.
  destruct (192 <=? (j + 16) mod 256) eqn:E;
    [apply Z.leb_le in E | apply Z.leb_gt in E];
    Z.div_mod_to_equations; lia.
Qed.

Lemma ring_loop_emitted (cnt : nat) :
  forall fuel i j s,
    (cnt <= fuel)%nat -> i + Z.of_nat cnt = 18 -> 0 <= i -> 0 <= j < 192 ->
    emitted (ring_loop fuel i j s)
    = map (fun o => Neo_writeHue (i + Z.of_nat o)
                      ((j + 16 * Z.of_nat o) mod 192) NEO_BRIGHT_ENC)
          (seq 0 cnt).
Proof.
  induction cnt as [|cnt IH]; intros fuel i j s Hfuel Hi Hi0 Hj.
  - assert (E : (i <? 18) = false) by (apply Z.ltb_ge; lia).
    destruct fuel; cbn [ring_loop]; rewrite ?E; reflexivity.
  - destruct fuel as [|fuel]; [lia|].
    assert (E : (i <? 18) = true) by (apply Z.ltb_lt; lia).
    cbn [ring_loop]. cbv zeta. rewrite E.
    rewrite (emitted_bind _ _ _ tt) by reflexivity.
    rewrite hue_step by exact Hj.
    assert (Ei : u8 (i + 1) = i + 1) by (unfold u8; apply Z.mod_small; lia).
    rewrite Ei.
    unfold NEO_writeHue at 1. cbn [emit emitted final].
    rewrite (IH fuel (i + 1) ((j + 16) mod 192));
      [|lia|lia|lia|apply Z.mod_pos_bound; lia].
    cbn [seq map app]. f_equal.
    + f_equal; [lia|]. rewrite Z.mul_0_r, Z.add_0_r. symmetry.
      apply Z.mod_small. exact Hj.
    + rewrite <- seq_shift, map_map. apply map_ext. intros o.
      f_equal; [lia|]. rewrite Zplus_mod_idemp_l. f_equal. lia.
Qed.

Lemma NEO_encoder_update_emitted (s : state) :
  phase_ok s -> emitted (NEO_encoder_update s) = ring_frame (neoencoder s).
Proof.
  intros Hs. unfold NEO_encoder_update, ring_frame.
  rewrite (emitted_bind _ _ _ (neoencoder s)) by reflexivity.
  cbn [gets emitted final app].
  destruct (ring_loop_frame 18 6 (neoencoder s) s) as [Hf Hv].
  rewrite (emitted_bind _ _ _ _ Hv).
  rewrite (ring_loop_emitted 12 18 6 (neoencoder s) s); [|lia|lia|lia|exact Hs].
  reflexivity.
Qed.

Lemma NEO_encoder_cw_emitted (s : state) :
  phase_ok s ->
  emitted (NEO_encoder_cw s) = ring_frame ((neoencoder s + 8) mod 192).
Proof.
  intros Hs. rewrite <- (cw_step_mod _ Hs).
  pose proof (cw_step_ok _ Hs) as Hok.
  unfold NEO_encoder_cw, cw_step in *.
  rewrite (emitted_bind _ _ _ tt) by reflexivity.
  rewrite (emitted_bind _ _ _ (u8 (neoencoder s + 8))) by reflexivity.
  cbn [modify gets emitted final app].
  destruct (192 <=? u8 (neoencoder s + 8));
    rewrite (emitted_bind _ _ _ tt) by reflexivity;
    cbn [modify ret emitted final app];
    rewrite NEO_encoder_update_emitted; try reflexivity; exact Hok.
Qed.

Lemma NEO_encoder_ccw_emitted (s : state) :
  phase_ok s ->
  emitted (NEO_encoder_ccw s) = ring_frame ((neoencoder s - 8) mod 192).
Proof.
  intros Hs. rewrite <- (ccw_step_mod _ Hs).
  pose proof (ccw_step_ok _ Hs) as Hok.
  unfold NEO_encoder_ccw, ccw_step in *.
  rewrite (emitted_bind _ _ _ tt) by reflexivity.
  rewrite (emitted_bind _ _ _ (u8 (neoencoder s - 8))) by reflexivity.
  cbn [modify gets emitted final app].
  destruct (192 <=? u8 (neoencoder s - 8));
    rewrite (emitted_bind _ _ _ tt) by reflexivity;
    cbn [modify ret emitted final app];
    rewrite NEO_encoder_update_emitted; try reflexivity; exact Hok.
Qed.

Lemma spin_run (n : nat) (s : state) : spin n s = mkOutcome [] s (Some tt).
Proof. induction n as [|n IH]; [reflexivity | exact IH]. Qed.

Lemma wait_next_detent_run (io : poll) (s : state) :
  wait_next_detent io s
  = mkOutcome [] s (match detent io with
                    | Rises _ => Some tt
                    | StuckLow => None
                    end).
Proof.
  unfold wait_next_detent. destruct (detent io); [apply spin_run | reflexivity].
Qed.

(** A macro function call, a stateful step [m] that returns, the debounce
    delay and a second macro function call, in a row. *)
Lemma rotation_block_run (act rel : M unit) (m : M unit) (s : state)
  (ta tr : trace) :
  (forall s0, act s0 = mkOutcome ta s0 (Some tt)) ->
  (forall s0, rel s0 = mkOutcome tr s0 (Some tt)) ->
  value (m s) = Some tt ->
  (act ;; m ;; DLY_ms 5 ;; rel) s
  = mkOutcome (ta ++ emitted (m s) ++ [Dly_ms 5] ++ tr) (final (m s)) (Some tt).
Proof.
  intros Ha Hr Hm.
  rewrite (bind_some act _ s tt) by (rewrite Ha; reflexivity).
  rewrite Ha. cbn [emitted final value].
  rewrite (bind_some m _ s tt Hm).
  rewrite (bind_some (DLY_ms 5) _ _ tt) by reflexivity.
  rewrite Hr. reflexivity.
Qed.

(** C6. When phase A reads low, phase B read at that moment decides the
    direction: high is clockwise, low is counter-clockwise.  In both cases
    the handler enters the ACTION macro function of the direction, moves
    the ring phase by 8 modulo 192 in that direction and renders the ring
    from the new phase, waits 5 ms, and enters the RELEASED macro function
    of the direction, in this order; it then waits for phase A to rise, and
    returns exactly when it does. *)
Theorem encoder_rotation_sequence (io : poll) (s : state) :
  phase_ok s ->
  PIN_read io PIN_ENC_A = false ->
  emitted (handle_encoder io s)
  = (if PIN_read io PIN_ENC_B then
       [Fire EncCwAction; Con_press CON_VOL_UP]
         ++ ring_frame ((neoencoder s + 8) mod 192)
         ++ [Dly_ms 5; Fire EncCwReleased; Con_release]
     else
       [Fire EncCcwAction; Con_press CON_VOL_DOWN]
         ++ ring_frame ((neoencoder s - 8) mod 192)
         ++ [Dly_ms 5; Fire EncCcwReleased; Con_release])
  /\ neoencoder (final (handle_encoder io s))
     = (if PIN_read io PIN_ENC_B then (neoencoder s + 8) mod 192
        else (neoencoder s - 8) mod 192)
  /\ value (handle_encoder io s)
     = match detent io with Rises _ => Some tt | StuckLow => None end.
Proof.
  intros Hs HA. unfold handle_encoder. rewrite HA. cbn [negb].
  destruct (PIN_read io PIN_ENC_B).
  - destruct (NEO_encoder_cw_final s) as [Hf Hv].
    pose proof (rotation_block_run ENC_CW_ACTION ENC_CW_RELEASED NEO_encoder_cw s
                  [Fire EncCwAction; Con_press CON_VOL_UP]
                  [Fire EncCwReleased; Con_release]
                  (fun _ => eq_refl) (fun _ => eq_refl) Hv) as Hblk.
    rewrite (bind_some _ _ s tt) by (rewrite Hblk; reflexivity).
    rewrite Hblk, wait_next_detent_run. cbn [emitted final value].
    rewrite (NEO_encoder_cw_emitted s Hs), Hf, neoencoder_set,
      (cw_step_mod _ Hs), app_nil_r.
    repeat split.
  - destruct (NEO_encoder_ccw_final s) as [Hf Hv].
    pose proof (rotation_block_run ENC_CCW_ACTION ENC_CCW_RELEASED
                  NEO_encoder_ccw s
                  [Fire EncCcwAction; Con_press CON_VOL_DOWN]
                  [Fire EncCcwReleased; Con_release]
                  (fun _ => eq_refl) (fun _ => eq_refl) Hv) as Hblk.
    rewrite (bind_some _ _ s tt) by (rewrite Hblk; reflexivity).
    rewrite Hblk, wait_next_detent_run. cbn [emitted final value].
    rewrite (NEO_encoder_ccw_emitted s Hs), Hf, neoencoder_set,
      (ccw_step_mod _ Hs), app_nil_r.
    repeat split.
Qed.

(** One detent clockwise from the initial state, the ring rendered from
    phase 8. *)
Lemma encoder_rotation_sequence_witness :
  emitted (handle_encoder (with_pin PIN_ENC_A false idle) init_state)
  = [Fire EncCwAction; Con_press CON_VOL_UP;
     Neo_writeHue 6 8 0; Neo_writeHue 7 24 0; Neo_writeHue 8 40 0;
     Neo_writeHue 9 56 0; Neo_writeHue 10 72 0; Neo_writeHue 11 88 0;
     Neo_writeHue 12 104 0; Neo_writeHue 13 120 0; Neo_writeHue 14 136 0;
     Neo_writeHue 15 152 0; Neo_writeHue 16 168 0; Neo_writeHue 17 184 0;
     Neo_update; Dly_ms 5; Fire EncCwReleased; Con_release].
Proof.
  exact (proj1 (encoder_rotation_sequence (with_pin PIN_ENC_A false idle)
                  init_state phase_ok_init eq_refl)).
Defined.

(* ================================================================== *)
(** ** Start-up: the bootloader check *)

Lemma setup_switch_pressed (boot : poll) (s : state) :
  PIN_read boot PIN_ENC_SW = false ->
  setup boot s
  = mkOutcome
      ([Neo_init; Clk_config; Dly_ms 10; Neo_clearAll]
         ++ repeat (Neo_sendByte 127) (Z.to_nat (3 * NEO_COUNT))
         ++ [Boot_now])
      s None.
Proof.
  intros H. unfold setup. rewrite H. vm_compute. reflexivity.
Qed.

(** C9, as the claim words it: with the switch low at power-on every pixel
    would get full white, that is 255 on each channel.  The firmware sends
    127 on each channel. *)
Lemma boot_white_is_not_full_scale :
  white_at 255 NEO_COUNT
    (sent_bytes (emitted (main (with_pin PIN_ENC_SW false idle) [] init_state)))
  = false.
Proof. vm_compute. reflexivity. Qed.

(** C9, amended.  With the encoder switch reading low at power-on, [main]
    initializes the pixels and the clock, clears all pixels, sends the value
    127 for each of the three channels of every pixel (white at half scale),
    and enters the bootloader, from which control never comes back: the run
    ends there whatever inputs follow, the USB HID device is never
    initialized, the watchdog is never started and no pass of the loop is
    made. *)
Theorem boot_with_switch_pressed_enters_bootloader (boot : poll)
  (ios : list poll) (s : state) :
  PIN_read boot PIN_ENC_SW = false ->
  main boot ios s
  = mkOutcome
      ([Neo_init; Clk_config; Dly_ms 10; Neo_clearAll]
         ++ repeat (Neo_sendByte 127) (Z.to_nat (3 * NEO_COUNT))
         ++ [Boot_now])
      s None
  /\ white_at 127 NEO_COUNT (sent_bytes (emitted (main boot ios s))) = true
  /\ called Hid_init (emitted (main boot ios s)) = false
  /\ called Wdt_start (emitted (main boot ios s)) = false
  /\ called Wdt_reset (emitted (main boot ios s)) = false
  /\ last (emitted (main boot ios s)) Neo_init = Boot_now.
Proof.
  intros H.
  assert (E : main boot ios s
              = mkOutcome
                  ([Neo_init; Clk_config; Dly_ms 10; Neo_clearAll]
                     ++ repeat (Neo_sendByte 127) (Z.to_nat (3 * NEO_COUNT))
                     ++ [Boot_now])
                  s None).
  { unfold main. rewrite bind_none; rewrite (setup_switch_pressed boot s H);
      reflexivity. }
  rewrite E. cbn [emitted]. repeat split; vm_compute; reflexivity.
Qed.

Lemma boot_with_switch_pressed_enters_bootloader_witness :
  value (main (with_pin PIN_ENC_SW false idle)
           [with_pin PIN_KEY1 false idle; idle] init_state) = None
  /\ called Hid_init
       (emitted (main (with_pin PIN_ENC_SW false idle)
                   [with_pin PIN_KEY1 false idle; idle] init_state)) = false.
Proof.
  pose proof (boot_with_switch_pressed_enters_bootloader
                (with_pin PIN_ENC_SW false idle)
                [with_pin PIN_KEY1 false idle; idle] init_state eq_refl)
    as (E & _ & Hhid & _).
  split; [rewrite E; reflexivity | exact Hhid].
Defined.

(* ================================================================== *)
(** ** Further properties of the ring *)

(** X1. [NEO_encoder_update] writes the twelve ring pixels 6..17 in index
    order, pixel [6 + o] with the hue [(neoencoder + 16 * o) mod 192] at the
    ring brightness, then flushes once; it returns and changes no variable.
    This holds from every phase in 0..191. *)
Theorem ring_render_rule (s : state) :
  phase_ok s ->
  NEO_encoder_update s = mkOutcome (ring_frame (neoencoder s)) s (Some tt).
Proof.
  intros Hs. destruct (NEO_encoder_update_frame s) as [Hf Hv].
  pose proof (NEO_encoder_update_emitted s Hs) as He.
  destruct (NEO_encoder_update s) as [t s' v]. cbn [emitted final value] in *.
  subst. reflexivity.
Qed.

(** The ring from the last phase 184: the hue wraps after the first pixel. *)
Lemma ring_render_rule_witness :
  emitted (NEO_encoder_update (set_neoencoder 184 init_state))
  = [Neo_writeHue 6 184 0; Neo_writeHue 7 8 0; Neo_writeHue 8 24 0;
     Neo_writeHue 9 40 0; Neo_writeHue 10 56 0; Neo_writeHue 11 72 0;
     Neo_writeHue 12 88 0; Neo_writeHue 13 104 0; Neo_writeHue 14 120 0;
     Neo_writeHue 15 136 0; Neo_writeHue 16 152 0; Neo_writeHue 17 168 0;
     Neo_update].
Proof.
  assert (H : phase_ok (set_neoencoder 184 init_state)).
  { unfold phase_ok. cbn. lia. }
  exact (f_equal emitted (ring_render_rule (set_neoencoder 184 init_state) H)).
Defined.

(** X2. From every phase in 0..191 the two rotations undo each other, in
    both orders, and 24 detents in one direction bring the ring back to
    where it was: the state after is the state before. *)
Theorem rotations_are_inverse_with_period_24 (s : state) :
  phase_ok s ->
  final ((NEO_encoder_cw ;; NEO_encoder_ccw) s) = s
  /\ final ((NEO_encoder_ccw ;; NEO_encoder_cw) s) = s
  /\ final (times 24 NEO_encoder_cw s) = s
  /\ final (times 24 NEO_encoder_ccw s) = s.
Proof.
  intros Hs. pose proof Hs as Hr. unfold phase_ok in Hr.
  destruct (NEO_encoder_cw_final s) as [Hcf Hcv].
  destruct (NEO_encoder_ccw_final s) as [Haf Hav].
  assert (Hset : forall n, n = neoencoder s -> set_neoencoder n s = s).
  { intros n ->. destruct s; reflexivity. }
  repeat split.
  - rewrite (final_bind _ _ _ _ Hcv), Hcf.
    destruct (NEO_encoder_ccw_final (set_neoencoder (cw_step (neoencoder s)) s))
      as [-> _].
    rewrite neoencoder_set, set_neoencoder_twice. apply Hset.
    rewrite (ccw_step_mod _ (cw_step_ok _ Hr)), (cw_step_mod _ Hr).
    Z.div_mod_to_equations; lia.
  - rewrite (final_bind _ _ _ _ Hav), Haf.
    destruct (NEO_encoder_cw_final (set_neoencoder (ccw_step (neoencoder s)) s))
      as [-> _].
    rewrite neoencoder_set, set_neoencoder_twice. apply Hset.
    rewrite (cw_step_mod _ (ccw_step_ok _ Hr)), (ccw_step_mod _ Hr).
    Z.div_mod_to_equations; lia.
  - destruct (times_cw 24 s Hs) as [-> _]. apply Hset.
    change (8 * Z.of_nat 24) with 192. Z.div_mod_to_equations; lia.
  - destruct (times_ccw 24 s Hs) as [-> _]. apply Hset.
    change (8 * Z.of_nat 24) with 192. Z.div_mod_to_equations; lia.
Qed.

Lemma rotations_are_inverse_with_period_24_witness :
  final ((NEO_encoder_ccw ;; NEO_encoder_cw) init_state) = init_state
  /\ final (times 24 NEO_encoder_cw (set_neoencoder 40 init_state))
     = set_neoencoder 40 init_state.
Proof.
  assert (H40 : phase_ok (set_neoencoder 40 init_state)).
  { unfold phase_ok. cbn. lia. }
  split.
  - exact (proj1 (proj2 (rotations_are_inverse_with_period_24 init_state
                           phase_ok_init))).
  - exact (proj1 (proj2 (proj2 (rotations_are_inverse_with_period_24
                                  (set_neoencoder 40 init_state) H40)))).
Defined.

Lemma encoder_phase_turn (io : poll) (n : Z) :
  0 <= n < 192 -> encoder_phase io n = (n + turn io) mod 192.
Proof.
  intros H. unfold encoder_phase, turn.
  destruct (PIN_read io PIN_ENC_A).
  - rewrite Z.add_0_r, Z.mod_small; [reflexivity | exact H].
  - destruct (PIN_read io PIN_ENC_B);
      [apply cw_step_mod | apply ccw_step_mod]; exact H.
Qed.

Lemma loop_phase (ios : list poll) :
  forall s, phase_ok s -> forallb settles ios = true ->
    neoencoder (final (loop ios s)) = (neoencoder s + net_turn ios) mod 192.
Proof.
  induction ios as [|io ios IH]; intros s Hs Hset.
  - cbn [loop ret final net_turn fold_right]. unfold phase_ok in Hs.
    rewrite Z.add_0_r, Z.mod_small; [reflexivity | exact Hs].
  - cbn [forallb] in Hset. apply andb_prop in Hset. destruct Hset as [Hio Hios].
    cbn [loop net_turn fold_right].
    rewrite (final_bind _ _ _ _ (loop_body_value io s Hio)).
    rewrite IH; [|apply (preserves_run_op (Op_pass io)), Hs | exact Hios].
    rewrite maps_phase_loop_body, (encoder_phase_turn io _ Hs).
    rewrite Zplus_mod_idemp_l. f_equal. fold (net_turn ios). lia.
Qed.

(** X3. Over any run of passes whose encoder wait ends, the ring phase
    moves by the net rotation: from a phase in 0..191 it ends at the start
    phase plus 8 per clockwise pass minus 8 per counter-clockwise pass,
    modulo 192; the key and switch inputs have no part in it. *)
Theorem ring_phase_follows_net_rotation (ios : list poll) (s : state) :
  phase_ok s ->
  forallb settles ios = true ->
  neoencoder (final (loop ios s)) = (neoencoder s + net_turn ios) mod 192.
Proof. intros Hs Hset. apply loop_phase; assumption. Qed.

(** Two detents back and one forward from phase 0, a key pressed meanwhile. *)
Lemma ring_phase_follows_net_rotation_witness :
  neoencoder
    (final (loop [with_pin PIN_ENC_B false (with_pin PIN_ENC_A false idle);
                  with_pin PIN_KEY3 false idle;
                  with_pin PIN_ENC_B false (with_pin PIN_ENC_A false idle);
                  with_pin PIN_ENC_A false idle] init_state))
  = 184.
Proof.
  exact (ring_phase_follows_net_rotation
           [with_pin PIN_ENC_B false (with_pin PIN_ENC_A false idle);
            with_pin PIN_KEY3 false idle;
            with_pin PIN_ENC_B false (with_pin PIN_ENC_A false idle);
            with_pin PIN_ENC_A false idle] init_state phase_ok_init eq_refl).
Defined.

(** The ring phase is in range and a multiple of 8. *)
Lemma on_detent_preserved (o : op) :
  preserves (fun s => phase_ok s /\ neoencoder s mod 8 = 0) (run_op o).
Proof.
  intros s [Hs H8]. split; [apply preserves_run_op, Hs|].
  unfold phase_ok in Hs. destruct o as [| | |boot|io]; cbn [run_op].
  - rewrite keeps_NEO_encoder_update. exact H8.
  - destruct (NEO_encoder_cw_final s) as [-> _].
    rewrite neoencoder_set, (cw_step_mod _ Hs).
    Z.div_mod_to_equations; lia.
  - destruct (NEO_encoder_ccw_final s) as [-> _].
    rewrite neoencoder_set, (ccw_step_mod _ Hs).
    Z.div_mod_to_equations; lia.
  - rewrite keeps_neoencoder_setup. exact H8.
  - rewrite maps_phase_loop_body, (encoder_phase_turn io _ Hs).
    unfold turn. destruct (PIN_read io PIN_ENC_A);
      [|destruct (PIN_read io PIN_ENC_B)];
      Z.div_mod_to_equations; lia.
Qed.

(** X4. In every run of [main], whatever the inputs and wherever it stops,
    the ring phase is a multiple of 8 below 192: the ring has 24 positions,
    one per detent. *)
Theorem ring_phase_on_detent_grid (boot : poll) (ios : list poll) :
  neoencoder (final (main boot ios init_state)) mod 8 = 0
  /\ 0 <= neoencoder (final (main boot ios init_state)) <= 184.
Proof.
  assert (H : phase_ok (final (main boot ios init_state))
              /\ neoencoder (final (main boot ios init_state)) mod 8 = 0).
  { unfold main. apply preserves_bind.
    - apply (on_detent_preserved (Op_setup boot)).
    - intros _. induction ios as [|io ios IH]; cbn [loop].
      + intros s Hs. exact Hs.
      + apply preserves_bind;
          [apply (on_detent_preserved (Op_pass io)) | intros _; exact IH].
    - split; [exact phase_ok_init | reflexivity]. }
  destruct H as [Hr H8]. unfold phase_ok in Hr.
  split; [exact H8|]. Z.div_mod_to_equations; lia.
Qed.

(* ================================================================== *)
(** ** Further properties of the loop *)

Lemma filter_skip {A B : Type} (p : event -> bool) (m : M A) (f : A -> M B)
  (s : state) (a : A) :
  silent p m -> value (m s) = Some a ->
  filter p (emitted (bind m f s)) = filter p (emitted (f a (final (m s)))).
Proof.
  intros Hs Ha. rewrite (emitted_bind _ _ _ _ Ha), filter_app, Hs. reflexivity.
Qed.

Lemma silent_called (p : event -> bool) (t : trace) :
  filter p t = [] -> existsb p t = false.
Proof.
  induction t as [|e t IH]; [reflexivity|]. cbn [filter existsb].
  destruct (p e); [discriminate|]. exact IH.
Qed.

Ltac hush_encoder Hoff :=
  let Hcw := fresh "Hcw" in
  let Hccw := fresh "Hccw" in
  pose proof (silent_NEO_encoder_cw _ Hoff) as Hcw;
  pose proof (silent_NEO_encoder_ccw _ Hoff) as Hccw;
  intros ?io; unfold handle_encoder, wait_next_detent, handle_switch;
  unfold_callbacks; unfold_drivers; hush.

Ltac hush_keys :=
  intros ?k ?io;
  match goal with
  | |- silent _ (handle_key ?k _) => destruct k
  end;
  cbn [handle_key]; unfold_handlers; unfold_callbacks; unfold_drivers; hush.

Lemma off_wdt_reset : off_keys is_wdt_reset /\ off_encoder is_wdt_reset.
Proof.
  assert (Hoff : off_ring is_wdt_reset) by (split; intros; reflexivity).
  split; [hush_keys | hush_encoder Hoff].
Qed.

(** The calls of a pass up to the end of the encoder handler are followed
    by those of the rest, when the encoder handler returns. *)
Lemma loop_body_filter (p : event -> bool) (io : poll) (s : state) :
  off_keys p -> off_encoder p -> settles io = true ->
  filter p (emitted (loop_body io s)) = filter p [Dly_ms 1; Wdt_reset].
Proof.
  intros Hk He Hset. rewrite loop_body_handle_key.
  repeat (rewrite (filter_skip p (handle_key _ io) _ _ tt);
          [|apply Hk | apply handle_key_value]).
  match goal with
  | |- context [bind (handle_encoder io) _ ?s6] =>
      destruct (total_handle_encoder io Hset s6) as [[] Hv];
      rewrite (filter_skip p (handle_encoder io) _ _ tt (He io) Hv)
  end.
  reflexivity.
Qed.

Lemma handle_encoder_stuck (io : poll) (s : state) :
  PIN_read io PIN_ENC_A = false -> detent io = StuckLow ->
  value (handle_encoder io s) = None.
Proof.
  intros HA Hd. unfold handle_encoder. rewrite HA. cbn [negb].
  assert (T : total (if PIN_read io PIN_ENC_B
                     then ENC_CW_ACTION ;; NEO_encoder_cw ;; DLY_ms 5 ;;
                          ENC_CW_RELEASED
                     else ENC_CCW_ACTION ;; NEO_encoder_ccw ;; DLY_ms 5 ;;
                          ENC_CCW_RELEASED)).
  { unfold_callbacks; unfold_drivers. walk. }
  destruct (T s) as [[] Hv].
  rewrite (value_bind _ _ _ _ Hv), wait_next_detent_run, Hd. reflexivity.
Qed.

(** The pass up to the encoder handler, when that one does not return. *)
Lemma loop_body_stuck (io : poll) (s : state) :
  PIN_read io PIN_ENC_A = false -> detent io = StuckLow ->
  value (loop_body io s) = None
  /\ filter is_wdt_reset (emitted (loop_body io s)) = [].
Proof.
  intros HA Hd. rewrite loop_body_handle_key.
  destruct off_wdt_reset as [Hk He].
  split.
  - repeat (rewrite (value_bind (handle_key _ io) _ _ tt);
            [|apply handle_key_value]).
    rewrite bind_none; [reflexivity | apply handle_encoder_stuck; assumption].
  - repeat (rewrite (filter_skip is_wdt_reset (handle_key _ io) _ _ tt);
            [|apply Hk | apply handle_key_value]).
    rewrite bind_none; [|apply handle_encoder_stuck; assumption].
    apply He.
Qed.

(** The calls of a rotation, as the encoder handler makes them. *)
Lemma handle_encoder_rotation_emitted (io : poll) (s : state) :
  phase_ok s -> PIN_read io PIN_ENC_A = false ->
  emitted (handle_encoder io s)
  = (if PIN_read io PIN_ENC_B then
       [Fire EncCwAction; Con_press CON_VOL_UP]
         ++ ring_frame ((neoencoder s + 8) mod 192)
         ++ [Dly_ms 5; Fire EncCwReleased; Con_release]
     else
       [Fire EncCcwAction; Con_press CON_VOL_DOWN]
         ++ ring_frame ((neoencoder s - 8) mod 192)
         ++ [Dly_ms 5; Fire EncCcwReleased; Con_release]).
Proof.
  intros Hs HA. unfold handle_encoder. rewrite HA. cbn [negb].
  destruct (PIN_read io PIN_ENC_B).
  - destruct (NEO_encoder_cw_final s) as [Hf Hv].
    pose proof (rotation_block_run ENC_CW_ACTION ENC_CW_RELEASED NEO_encoder_cw s
                  [Fire EncCwAction; Con_press CON_VOL_UP]
                  [Fire EncCwReleased; Con_release]
                  (fun _ => eq_refl) (fun _ => eq_refl) Hv) as Hblk.
    rewrite (emitted_bind _ _ s tt) by (rewrite Hblk; reflexivity).
    rewrite Hblk, wait_next_detent_run. cbn [emitted].
    rewrite (NEO_encoder_cw_emitted s Hs), app_nil_r. reflexivity.
  - destruct (NEO_encoder_ccw_final s) as [Hf Hv].
    pose proof (rotation_block_run ENC_CCW_ACTION ENC_CCW_RELEASED
                  NEO_encoder_ccw s
                  [Fire EncCcwAction; Con_press CON_VOL_DOWN]
                  [Fire EncCcwReleased; Con_release]
                  (fun _ => eq_refl) (fun _ => eq_refl) Hv) as Hblk.
    rewrite (emitted_bind _ _ s tt) by (rewrite Hblk; reflexivity).
    rewrite Hblk, wait_next_detent_run. cbn [emitted].
    rewrite (NEO_encoder_ccw_emitted s Hs), app_nil_r. reflexivity.
Qed.

(** The six key handlers of a pass, followed by the rest [k] of the pass. *)
Lemma keys_then (io : poll) (k : M unit) (s : state) :
  (handle_key Key1 io ;; handle_key Key2 io ;; handle_key Key3 io ;;
   handle_key Key4 io ;; handle_key Key5 io ;; handle_key Key6 io ;; k) s
  = mkOutcome (keys_events io s ++ emitted (k (after_keys io s)))
              (final (k (after_keys io s)))
              (value (k (after_keys io s))).
Proof.
  unfold keys_events.
  repeat (rewrite (bind_some (handle_key _ io) _ _ tt (handle_key_value _ _ _));
          rewrite handle_key_emitted, handle_key_final, key_rule_trace_events).
  assert (E : set_key_last Key6 (negb (PIN_read io (key_pin Key6)))
                (set_key_last Key5 (negb (PIN_read io (key_pin Key5)))
                   (set_key_last Key4 (negb (PIN_read io (key_pin Key4)))
                      (set_key_last Key3 (negb (PIN_read io (key_pin Key3)))
                         (set_key_last Key2 (negb (PIN_read io (key_pin Key2)))
                            (set_key_last Key1
                               (negb (PIN_read io (key_pin Key1))) s)))))
              = after_keys io s).
  { destruct s; reflexivity. }
  rewrite E. cbn [emitted final value].
  destruct s as [k1 k2 k3 k4 k5 k6 sw n].
  cbn [key_last key_pin set_key_last set_key1last set_key2last set_key3last
       set_key4last set_key5last key1last key2last key3last key4last key5last
       key6last isSwitchPressed neoencoder].
  rewrite <- !app_assoc. reflexivity.
Qed.

(** X5. A pass in which phase A reads low and never rises again does not
    end.  From a ring phase in 0..191 its calls are exactly those of the
    six key handlers, by their transition rules, followed by the report of
    the rotation in the direction phase B gives: ACTION, the ring rendered
    from the moved phase, the 5 ms delay, RELEASED.  Then the encoder
    handler spins in its wait: the 1 ms delay and the watchdog reset of the
    pass are never reached, and nothing of the inputs that follow is looked
    at.  The key flags hold the levels just read and the ring phase has
    moved by one detent. *)
Theorem stuck_encoder_blocks_the_loop (io : poll) (rest : list poll)
  (s : state) :
  phase_ok s ->
  PIN_read io PIN_ENC_A = false ->
  detent io = StuckLow ->
  loop (io :: rest) s
  = mkOutcome
      (keys_events io s
         ++ rotation_events (PIN_read io PIN_ENC_B) (neoencoder s))
      (set_neoencoder
         (if PIN_read io PIN_ENC_B then (neoencoder s + 8) mod 192
          else (neoencoder s - 8) mod 192)
         (after_keys io s))
      None
  /\ filter is_wdt_reset (emitted (loop (io :: rest) s)) = [].
Proof.
  intros Hs HA Hd.
  assert (Hs' : phase_ok (after_keys io s)) by exact Hs.
  pose proof (handle_encoder_stuck io (after_keys io s) HA Hd) as Hv.
  pose proof (handle_encoder_rotation_emitted io (after_keys io s) Hs' HA)
    as He.
  assert (Hf : final (handle_encoder io (after_keys io s))
               = set_neoencoder
                   (if PIN_read io PIN_ENC_B then (neoencoder s + 8) mod 192
                    else (neoencoder s - 8) mod 192)
                   (after_keys io s)).
  { unfold handle_encoder. rewrite HA. cbn [negb].
    destruct (PIN_read io PIN_ENC_B).
    - destruct (NEO_encoder_cw_final (after_keys io s)) as [Hcf Hcv].
      pose proof (rotation_block_run ENC_CW_ACTION ENC_CW_RELEASED
                    NEO_encoder_cw (after_keys io s)
                    [Fire EncCwAction; Con_press CON_VOL_UP]
                    [Fire EncCwReleased; Con_release]
                    (fun _ => eq_refl) (fun _ => eq_refl) Hcv) as Hblk.
      rewrite (final_bind _ _ _ tt) by (rewrite Hblk; reflexivity).
      rewrite Hblk, wait_next_detent_run. cbn [final].
      rewrite Hcf, (cw_step_mod _ Hs'). reflexivity.
    - destruct (NEO_encoder_ccw_final (after_keys io s)) as [Hcf Hcv].
      pose proof (rotation_block_run ENC_CCW_ACTION ENC_CCW_RELEASED
                    NEO_encoder_ccw (after_keys io s)
                    [Fire EncCcwAction; Con_press CON_VOL_DOWN]
                    [Fire EncCcwReleased; Con_release]
                    (fun _ => eq_refl) (fun _ => eq_refl) Hcv) as Hblk.
      rewrite (final_bind _ _ _ tt) by (rewrite Hblk; reflexivity).
      rewrite Hblk, wait_next_detent_run. cbn [final].
      rewrite Hcf, (ccw_step_mod _ Hs'). reflexivity. }
  assert (Hbody : loop_body io s
                  = mkOutcome
                      (keys_events io s
                         ++ rotation_events (PIN_read io PIN_ENC_B)
                              (neoencoder s))
                      (set_neoencoder
                         (if PIN_read io PIN_ENC_B
                          then (neoencoder s + 8) mod 192
                          else (neoencoder s - 8) mod 192)
                         (after_keys io s))
                      None).
  { rewrite loop_body_handle_key, keys_then.
    rewrite (bind_none _ _ _ Hv). cbn [emitted final value].
    rewrite He, Hf. reflexivity. }
  assert (Hloop : loop (io :: rest) s = loop_body io s).
  { cbn [loop]. rewrite bind_none; rewrite Hbody; reflexivity. }
  split.
  - rewrite Hloop. exact Hbody.
  - rewrite Hloop. apply (loop_body_stuck io s HA Hd).
Qed.

(** Phase A stuck low, phase B high, while key 2 goes down, from the
    initial state: the key is served, the clockwise detent is reported,
    the pass never ends and the later release of the key is not seen. *)
Lemma stuck_encoder_blocks_the_loop_witness :
  loop [mkPoll (level (with_pin PIN_KEY2 false
                         (with_pin PIN_ENC_A false idle))) StuckLow;
        idle] init_state
  = mkOutcome
      ([Neo_writeHue 1 32 2; Neo_update; Fire (Pressed Key2);
        Con_press CON_MEDIA_PLAY;
        Fire EncCwAction; Con_press CON_VOL_UP]
         ++ ring_frame 8
         ++ [Dly_ms 5; Fire EncCwReleased; Con_release])
      (set_neoencoder 8 (set_key2last true init_state))
      None.
Proof.
  exact (proj1 (stuck_encoder_blocks_the_loop
                  (mkPoll (level (with_pin PIN_KEY2 false
                                    (with_pin PIN_ENC_A false idle))) StuckLow)
                  [idle] init_state phase_ok_init eq_refl eq_refl)).
Defined.

(** X6. A run of passes whose encoder wait ends comes back, and resets the
    watchdog exactly once per pass: every such pass ends with the 1 ms
    delay followed by [WDT_reset], and resets it nowhere else. *)
Theorem watchdog_reset_once_per_pass (ios : list poll) (s : state) :
  forallb settles ios = true ->
  value (loop ios s) = Some tt
  /\ length (filter is_wdt_reset (emitted (loop ios s))) = length ios
  /\ (forall io s0, In io ios ->
        exists t, emitted (loop_body io s0) = t ++ [Dly_ms 1; Wdt_reset]
                  /\ filter is_wdt_reset t = []).
Proof.
  intros Hset. destruct off_wdt_reset as [Hk He].
  split; [|split].
  - revert s. induction ios as [|io ios IH]; intros s; [reflexivity|].
    cbn [forallb] in Hset. apply andb_prop in Hset. destruct Hset as [Hio Hios].
    cbn [loop]. rewrite (value_bind _ _ _ _ (loop_body_value io s Hio)).
    apply IH, Hios.
  - revert s. induction ios as [|io ios IH]; intros s; [reflexivity|].
    cbn [forallb] in Hset. apply andb_prop in Hset. destruct Hset as [Hio Hios].
    cbn [loop]. rewrite (emitted_bind _ _ _ _ (loop_body_value io s Hio)).
    rewrite filter_app, length_app, (IH Hios).
    rewrite (loop_body_filter _ io s Hk He Hio). reflexivity.
  - intros io s0 Hin.
    assert (Hio : settles io = true).
    { rewrite forallb_forall in Hset. apply Hset, Hin. }
    rewrite loop_body_handle_key.
    set (s1 := final (handle_key Key1 io s0)).
    set (s2 := final (handle_key Key2 io s1)).
    set (s3 := final (handle_key Key3 io s2)).
    set (s4 := final (handle_key Key4 io s3)).
    set (s5 := final (handle_key Key5 io s4)).
    set (s6 := final (handle_key Key6 io s5)).
    destruct (total_handle_encoder io Hio s6) as [[] Hv].
    exists (emitted (handle_key Key1 io s0) ++ emitted (handle_key Key2 io s1)
            ++ emitted (handle_key Key3 io s2) ++ emitted (handle_key Key4 io s3)
            ++ emitted (handle_key Key5 io s4) ++ emitted (handle_key Key6 io s5)
            ++ emitted (handle_encoder io s6)).
    split.
    + repeat (rewrite (emitted_bind (handle_key _ io) _ _ tt);
              [|apply handle_key_value]).
      fold s1 s2 s3 s4 s5 s6.
      rewrite (emitted_bind _ _ _ _ Hv).
      rewrite <- !app_assoc. reflexivity.
    + rewrite !filter_app, !Hk, He. reflexivity.
Qed.

Lemma watchdog_reset_once_per_pass_witness :
  length (filter is_wdt_reset
            (emitted (loop [with_pin PIN_ENC_A false idle;
                            with_pin PIN_KEY5 false idle; idle] init_state)))
  = 3%nat.
Proof.
  exact (proj1 (proj2 (watchdog_reset_once_per_pass
                         [with_pin PIN_ENC_A false idle;
                          with_pin PIN_KEY5 false idle; idle] init_state
                         eq_refl))).
Defined.

Lemma silent_loop_body (p : event -> bool) (io : poll) :
  off_keys p -> off_encoder p -> p (Dly_ms 1) = false -> p Wdt_reset = false ->
  silent p (loop_body io).
Proof.
  intros Hk He Hd Hw. rewrite loop_body_handle_key.
  repeat (apply silent_bind; [apply Hk | intros _]).
  apply silent_bind; [apply He | intros _].
  apply silent_bind; [apply silent_emit, Hd | intros _].
  apply silent_emit, Hw.
Qed.

Lemma silent_loop (p : event -> bool) (ios : list poll) :
  off_keys p -> off_encoder p -> p (Dly_ms 1) = false -> p Wdt_reset = false ->
  silent p (loop ios).
Proof.
  intros Hk He Hd Hw. induction ios as [|io ios IH]; cbn [loop].
  - apply silent_ret.
  - apply silent_bind; [apply silent_loop_body; assumption | intros _; exact IH].
Qed.

Lemma off_setup_only : off_keys setup_only /\ off_encoder setup_only.
Proof.
  assert (Hoff : off_ring setup_only) by (split; intros; reflexivity).
  split; [hush_keys | hush_encoder Hoff].
Qed.

(** The calls of the setup before its last command [k], when the
    bootloader branch is not taken. *)
Lemma setup_calls_then (k : M unit) (s : state) :
  (NEO_init ;; CLK_config ;; DLY_ms 10 ;; NEO_clearAll ;; ret tt ;;
   HID_init ;; DLY_ms 500 ;; WDT_start ;; k) s
  = mkOutcome
      ([Neo_init; Clk_config; Dly_ms 10; Neo_clearAll; Hid_init; Dly_ms 500;
        Wdt_start] ++ emitted (k s))
      (final (k s)) (value (k s)).
Proof. reflexivity. Qed.

(** The setup with the switch released: the whole sequence. *)
Lemma setup_switch_released (boot : poll) (s : state) :
  PIN_read boot PIN_ENC_SW = true ->
  setup boot s
  = mkOutcome
      ([Neo_init; Clk_config; Dly_ms 10; Neo_clearAll; Hid_init; Dly_ms 500;
        Wdt_start] ++ emitted (NEO_encoder_update s))
      s (Some tt).
Proof.
  intros H. destruct (NEO_encoder_update_frame s) as [Hf Hv].
  unfold setup. rewrite H. cbn [negb].
  rewrite (setup_calls_then NEO_encoder_update s), Hf, Hv. reflexivity.
Qed.

(** X7. The one-time calls stay in the setup.  The loop, over any inputs
    and from any state, never initializes a device, never clears all
    pixels, never sends raw pixel bytes, never starts the watchdog and
    never enters the bootloader.  With the encoder switch released at
    power-on a run of [main] makes each of these calls once, in the order
    pixels, clock, clear, USB HID, watchdog, and none of the bootloader
    branch. *)
Theorem one_time_calls_stay_in_setup (boot : poll) (ios : list poll)
  (s : state) :
  PIN_read boot PIN_ENC_SW = true ->
  filter setup_only (emitted (loop ios s)) = []
  /\ filter setup_only (emitted (main boot ios s))
     = [Neo_init; Clk_config; Neo_clearAll; Hid_init; Wdt_start].
Proof.
  intros H. destruct off_setup_only as [Hk He].
  assert (Hloop : forall s0, filter setup_only (emitted (loop ios s0)) = []).
  { intros s0. apply silent_loop; [exact Hk | exact He | reflexivity ..]. }
  split; [apply Hloop|].
  unfold main.
  rewrite (emitted_bind _ _ _ tt)
    by (rewrite (setup_switch_released boot s H); reflexivity).
  rewrite filter_app, Hloop, (setup_switch_released boot s H).
  cbn [emitted]. rewrite filter_app.
  rewrite (silent_NEO_encoder_update setup_only);
    [reflexivity | split; intros; reflexivity].
Qed.

Lemma one_time_calls_stay_in_setup_witness :
  filter setup_only
    (emitted (main idle [with_pin PIN_ENC_SW false idle;
                         with_pin PIN_ENC_A false idle] init_state))
  = [Neo_init; Clk_config; Neo_clearAll; Hid_init; Wdt_start].
Proof.
  exact (proj2 (one_time_calls_stay_in_setup idle
                  [with_pin PIN_ENC_SW false idle;
                   with_pin PIN_ENC_A false idle] init_state eq_refl)).
Defined.

(* ------------------------------------------------------------------ *)
(** *** Following a source of events through a run *)

(** A way [T] of following a trace from a position, which composes over
    concatenation and agrees with every pass on the component [g] of the
    state, agrees with every run of passes, ended or not. *)
Lemma loop_tracks {X : Type} (T : X -> trace -> option X) (g : state -> X) :
  (forall x, T x [] = Some x) ->
  (forall x t u, T x (t ++ u)
                 = match T x t with Some y => T y u | None => None end) ->
  (forall io s, T (g s) (emitted (loop_body io s))
                = Some (g (final (loop_body io s)))) ->
  forall ios s, T (g s) (emitted (loop ios s)) = Some (g (final (loop ios s))).
Proof.
  intros Hnil Happ Hpass. induction ios as [|io ios IH]; intros s.
  - apply Hnil.
  - cbn [loop]. unfold bind.
    destruct (value (loop_body io s)) as [[]|]; cbn [emitted final].
    + rewrite Happ, Hpass. apply IH.
    + apply Hpass.
Qed.

Lemma key_track_app (k : key) (t u : trace) :
  forall d, key_track k d (t ++ u)
            = match key_track k d t with
              | Some d' => key_track k d' u
              | None => None
              end.
Proof.
  induction t as [|e t IH]; intros d; [reflexivity|].
  destruct e as [| | | | | | | | | | | | | | | |h]; cbn [app key_track];
    try apply IH.
  destruct h as [j|j|j| | | | | |]; try apply IH;
    destruct (key_eqb j k), d; try apply IH; reflexivity.
Qed.

Lemma key_track_filter (k : key) (t : trace) :
  forall d, key_track k d (filter (about_key k) t) = key_track k d t.
Proof.
  induction t as [|e t IH]; intros d; [reflexivity|].
  destruct e as [| | |p h b|p| | | | | | | | | | | |h];
    cbn [filter about_key key_track]; try apply IH.
  - destruct (p =? key_pixel k); cbn [key_track]; apply IH.
  - destruct (p =? key_pixel k); cbn [key_track]; apply IH.
  - destruct h as [j|j|j| | | | | |]; try apply IH;
      destruct (key_eqb j k) eqn:E; cbn [key_track]; rewrite ?E;
      try apply IH; destruct d; try apply IH; reflexivity.
Qed.

(** X8. The macro function calls of a key alternate.  Take the key as up
    or down as its stored flag says at the start of a run of passes, and
    let each PRESSED call put it down and each RELEASED call put it up.
    Then over any run, from any state, ended or hung, and whatever happens
    on the other inputs, PRESSED of key [k] is called only when the calls
    so far left the key up, RELEASED and HELD only when they left it down:
    PRESSED and RELEASED strictly alternate, HELD comes only between a
    PRESSED and the next RELEASED, and the stored flag at the end of the
    run is where the calls leave the key. *)
Theorem key_events_follow_the_key (k : key) (ios : list poll) (s : state) :
  key_track k (key_last k s) (emitted (loop ios s))
  = Some (key_last k (final (loop ios s))).
Proof.
  apply (loop_tracks (key_track k) (key_last k)).
  - reflexivity.
  - intros x t u. apply key_track_app.
  - intros io s0. rewrite <- key_track_filter.
    pose proof (loop_body_key_view k io s0) as V. unfold obs in V.
    injection V as -> ->.
    destruct k, (PIN_read io _), (key_last _ s0); reflexivity.
Qed.

Lemma switch_track_app (t u : trace) :
  forall d, switch_track d (t ++ u)
            = match switch_track d t with
              | Some d' => switch_track d' u
              | None => None
              end.
Proof.
  induction t as [|e t IH]; intros d; [reflexivity|].
  destruct e as [| | | | | | | | | | | | | | | |h]; cbn [app switch_track];
    try apply IH.
  destruct h; try apply IH; destruct d; try apply IH; reflexivity.
Qed.

Lemma switch_track_filter (t : trace) :
  forall d, switch_track d (filter about_switch t) = switch_track d t.
Proof.
  induction t as [|e t IH]; intros d; [reflexivity|].
  destruct e as [| | | | | | | | | | | | | | | |h];
    cbn [filter about_switch switch_track]; try apply IH.
  destruct h; cbn [switch_track]; try apply IH;
    destruct d; try apply IH; reflexivity.
Qed.

(** X9. The two macro functions of the encoder switch alternate.  Over any
    run of passes, from any state, rotations mixed in or not,
    ENC_SW_PRESSED is entered only while [isSwitchPressed] is clear and
    ENC_SW_RELEASED only while it is set, and the flag at the end is where
    the calls leave the switch. *)
Theorem switch_events_alternate (ios : list poll) (s : state) :
  switch_track (isSwitchPressed s) (emitted (loop ios s))
  = Some (isSwitchPressed (final (loop ios s))).
Proof.
  apply (loop_tracks switch_track isSwitchPressed).
  - reflexivity.
  - intros x t u. apply switch_track_app.
  - intros io s0. rewrite <- switch_track_filter.
    pose proof (loop_body_switch_view io s0) as V. unfold obs in V.
    injection V as -> ->.
    unfold handle_encoder. destruct (PIN_read io PIN_ENC_A) eqn:HA; cbn [negb].
    + rewrite handle_switch_run. cbn [emitted final].
      destruct s0 as [k1 k2 k3 k4 k5 k6 sw n]. cbn [isSwitchPressed].
      destruct sw, (PIN_read io PIN_ENC_SW); reflexivity.
    + destruct (rotation_invisible_to_switch io HA) as [Hs Hk].
      unfold handle_encoder in Hs, Hk. rewrite HA in Hs, Hk.
      cbn [negb] in Hs, Hk. rewrite Hs, Hk. reflexivity.
Qed.

(** The trackers do reject traces: a release or a hold of a key that is up,
    a second press of the switch. *)
Example trackers_reject :
  key_track Key1 false [Fire (Released Key1)] = None
  /\ key_track Key1 false [Fire (Pressed Key1); Fire (Pressed Key1)] = None
  /\ key_track Key1 false [Fire (Hold Key1)] = None
  /\ switch_track false [Fire EncSwPressed; Fire EncSwPressed] = None.
Proof. repeat split. Qed.

Lemma pixel_lit_app (k : key) (t u : trace) :
  forall lit, pixel_lit k lit (t ++ u) = pixel_lit k (pixel_lit k lit t) u.
Proof.
  induction t as [|e t IH]; intros lit; [reflexivity|].
  destruct e; cbn [app pixel_lit]; apply IH.
Qed.

Lemma pixel_lit_filter (k : key) (t : trace) :
  filter setup_only t = [] ->
  forall lit, pixel_lit k lit (filter (about_key k) t) = pixel_lit k lit t.
Proof.
  induction t as [|e t IH]; intros H lit; [reflexivity|].
  cbn [filter] in H.
  destruct e as [| | |p h b|p| | | | | | | | | | | |h];
    cbn [setup_only] in H; try discriminate H;
    cbn [filter about_key pixel_lit]; try (apply IH; exact H).
  - destruct (p =? key_pixel k) eqn:E; cbn [pixel_lit]; rewrite ?E;
      apply IH; exact H.
  - destruct (p =? key_pixel k) eqn:E; cbn [pixel_lit]; rewrite ?E;
      apply IH; exact H.
  - destruct h as [j|j|j| | | | | |]; try (apply IH; exact H);
      destruct (key_eqb j k); cbn [pixel_lit]; apply IH; exact H.
Qed.

Lemma pixel_lit_pass (k : key) (io : poll) (s : state) :
  pixel_lit k (key_last k s) (emitted (loop_body io s))
  = key_last k (final (loop_body io s)).
Proof.
  destruct off_setup_only as [Hk He].
  rewrite <- pixel_lit_filter
    by (apply silent_loop_body; [exact Hk | exact He | reflexivity ..]).
  pose proof (loop_body_key_view k io s) as V. unfold obs in V.
  injection V as -> ->.
  destruct k, (PIN_read io _), (key_last _ s); reflexivity.
Qed.

Lemma pixel_lit_loop (k : key) (ios : list poll) (s : state) :
  pixel_lit k (key_last k s) (emitted (loop ios s))
  = key_last k (final (loop ios s)).
Proof.
  pose proof (loop_tracks (fun lit t => Some (pixel_lit k lit t)) (key_last k))
    as H.
  cbv beta in H.
  assert (E : Some (pixel_lit k (key_last k s) (emitted (loop ios s)))
              = Some (key_last k (final (loop ios s)))).
  { apply H.
    - reflexivity.
    - intros x t u. rewrite pixel_lit_app. reflexivity.
    - intros io s0. rewrite pixel_lit_pass. reflexivity. }
  injection E as E. exact E.
Qed.

(** X10. The pixel of a key shows the key.  Over any run of passes, ended
    or not, a key pixel that agreed with the stored flag at the start (lit
    when pressed) agrees with it at the end: no other handler and no ring
    rendering writes or clears pixels 0..5.  In a run of [main] with the
    encoder switch released at power-on the setup clears all pixels,
    whatever they held ([lit]), and all flags start released, so pixel and
    flag agree at the end of the run. *)
Theorem key_pixel_shows_key_state (k : key) (boot : poll) (ios : list poll)
  (s : state) (lit : bool) :
  PIN_read boot PIN_ENC_SW = true ->
  pixel_lit k (key_last k s) (emitted (loop ios s))
  = key_last k (final (loop ios s))
  /\ pixel_lit k lit (emitted (main boot ios init_state))
     = key_last k (final (main boot ios init_state)).
Proof.
  intros H. split; [apply pixel_lit_loop|].
  pose proof (setup_switch_released boot init_state H) as E.
  unfold main.
  rewrite (emitted_bind _ _ _ tt) by (rewrite E; reflexivity).
  rewrite (final_bind _ _ _ tt) by (rewrite E; reflexivity).
  rewrite E. cbn [emitted final]. rewrite !pixel_lit_app.
  assert (Hsetup : pixel_lit k
                     (pixel_lit k lit
                        [Neo_init; Clk_config; Dly_ms 10; Neo_clearAll;
                         Hid_init; Dly_ms 500; Wdt_start])
                     (emitted (NEO_encoder_update init_state))
                   = key_last k init_state).
  { rewrite <- pixel_lit_filter
      by (apply silent_NEO_encoder_update; split; intros; reflexivity).
    rewrite (silent_NEO_encoder_update _ (off_ring_about_key k)).
    destruct k; reflexivity. }
  rewrite Hsetup. apply pixel_lit_loop.
Qed.

(** Key 4 pressed and kept down over a rotation: its pixel stays lit. *)
Lemma key_pixel_shows_key_state_witness :
  pixel_lit Key4 true
    (emitted (main idle [with_pin PIN_KEY4 false idle;
                         with_pin PIN_KEY4 false
                           (with_pin PIN_ENC_A false idle)] init_state))
  = true.
Proof.
  exact (proj2 (key_pixel_shows_key_state Key4 idle
                  [with_pin PIN_KEY4 false idle;
                   with_pin PIN_KEY4 false (with_pin PIN_ENC_A false idle)]
                  init_state true eq_refl)).
Defined.

(* ------------------------------------------------------------------ *)
(** *** The arguments handed to the NeoPixel driver *)

Lemma clean_bind {A B : Type} (P : state -> Prop) (q : event -> bool)
  (m : M A) (f : A -> M B) :
  clean P q m -> (forall a, clean P q (f a)) -> clean P q (bind m f).
Proof.
  intros Hm Hf s Hs. destruct (Hm s Hs) as [Hq HP]. unfold bind.
  destruct (value (m s)) as [a|]; cbn [emitted final].
  - destruct (Hf a _ HP) as [Hq' HP']. rewrite forallb_app, Hq, Hq'.
    split; [reflexivity | exact HP'].
  - split; assumption.
Qed.

Lemma args_ok_ring_frame (p : Z) : forallb args_ok (ring_frame p) = true.
Proof.
  unfold ring_frame. rewrite forallb_app. cbn [forallb args_ok andb].
  rewrite andb_true_r. apply forallb_forall. intros e He.
  apply in_map_iff in He. destruct He as (o & <- & Ho).
  apply in_seq in Ho. unfold args_ok, NEO_COUNT, NEO_BRIGHT_ENC.
  pose proof (Z.mod_pos_bound (p + 16 * Z.of_nat o) 192 ltac:(lia)) as Hm.
  repeat (apply andb_true_intro; split);
    first [apply Z.leb_le | apply Z.ltb_lt]; lia.
Qed.

Lemma clean_handle_key (k : key) (io : poll) :
  clean phase_ok args_ok (handle_key k io).
Proof.
  intros s Hs. split.
  - rewrite handle_key_emitted.
    destruct k, (PIN_read io _), (key_last _ s); reflexivity.
  - unfold phase_ok. rewrite handle_key_final.
    destruct k; exact Hs.
Qed.

Lemma clean_handle_encoder (io : poll) :
  clean phase_ok args_ok (handle_encoder io).
Proof.
  intros s Hs. split.
  - destruct (PIN_read io PIN_ENC_A) eqn:HA.
    + unfold handle_encoder. rewrite HA. cbn [negb].
      rewrite handle_switch_run. cbn [emitted]. unfold switch_rule_trace.
      destruct (isSwitchPressed s), (PIN_read io PIN_ENC_SW); reflexivity.
    + rewrite (handle_encoder_rotation_emitted io s Hs HA).
      destruct (PIN_read io PIN_ENC_B);
        rewrite !forallb_app, args_ok_ring_frame; reflexivity.
  - unfold phase_ok. rewrite maps_phase_handle_encoder.
    unfold phase_ok in Hs. rewrite (encoder_phase_turn io _ Hs).
    apply Z.mod_pos_bound. lia.
Qed.

Lemma clean_loop (ios : list poll) : clean phase_ok args_ok (loop ios).
Proof.
  induction ios as [|io ios IH]; cbn [loop].
  - intros s Hs. split; [reflexivity | exact Hs].
  - apply clean_bind; [|intros _; exact IH].
    rewrite loop_body_handle_key.
    repeat (apply clean_bind; [apply clean_handle_key | intros _]).
    apply clean_bind; [apply clean_handle_encoder | intros _].
    intros s Hs. split; [reflexivity | exact Hs].
Qed.

Lemma clean_setup (boot : poll) : clean phase_ok args_ok (setup boot).
Proof.
  intros s Hs. destruct (PIN_read boot PIN_ENC_SW) eqn:H.
  - rewrite (setup_switch_released boot s H). cbn [emitted final].
    rewrite (NEO_encoder_update_emitted s Hs), forallb_app, args_ok_ring_frame.
    split; [reflexivity | exact Hs].
  - rewrite (setup_switch_pressed boot s H). cbn [emitted final].
    split; [vm_compute; reflexivity | exact Hs].
Qed.

(** X11. Every call to the NeoPixel driver has its arguments in range.  In
    any run of [main], whatever the inputs and wherever it stops, each
    [NEO_writeHue] gets a pixel index below [NEO_COUNT], a hue in 0..191 and
    a brightness in 0..2, and each [NEO_clearPixel] a pixel index below
    [NEO_COUNT]. *)
Theorem driver_arguments_in_range (boot : poll) (ios : list poll) :
  forallb args_ok (emitted (main boot ios init_state)) = true.
Proof.
  unfold main.
  apply (clean_bind phase_ok args_ok (setup boot) (fun _ => loop ios)).
  - apply clean_setup.
  - intros _. apply clean_loop.
  - exact phase_ok_init.
Qed.

(* ------------------------------------------------------------------ *)
(** *** The keyboard reports *)

(** What a pass shows of key [k] through a selector [p] that picks nothing
    of the other handlers nor of the end of the pass. *)
Lemma loop_body_view_of_key (p : event -> bool) (k : key) (io : poll)
  (s : state) :
  (forall j i, key_eqb j k = false -> silent p (handle_key j i)) ->
  off_encoder p -> p (Dly_ms 1) = false -> p Wdt_reset = false ->
  obs p (key_last k) (loop_body io s)
  = (filter p (key_rule_trace k (PIN_read io (key_pin k)) (key_last k s)),
     negb (PIN_read io (key_pin k))).
Proof.
  intros Hothers He Hd Hw. rewrite loop_body_handle_key.
  assert (Hskip : forall j (rest : M unit) s0,
             key_eqb j k = false ->
             obs p (key_last k) ((handle_key j io ;; rest) s0)
             = obs p (key_last k) (rest (final (handle_key j io s0)))
               /\ key_last k (final (handle_key j io s0)) = key_last k s0).
  { intros j rest s0 Hj. split.
    - apply (obs_skip p (key_last k) (handle_key j io) (fun _ => rest) s0 tt);
        [apply Hothers, Hj | apply handle_key_value].
    - apply other_key_invisible, Hj. }
  assert (Hown : forall s0,
             obs p (key_last k) (handle_key k io s0)
             = (filter p
                  (key_rule_trace k (PIN_read io (key_pin k)) (key_last k s0)),
                negb (PIN_read io (key_pin k)))).
  { intros s0. unfold obs.
    rewrite handle_key_emitted, handle_key_final, key_last_set. reflexivity. }
  assert (Htail : silent p (handle_encoder io ;; DLY_ms 1 ;; WDT_reset)).
  { apply silent_bind; [apply He | intros _].
    apply silent_bind; [apply silent_emit, Hd | intros _].
    apply silent_emit, Hw. }
  destruct k;
    repeat match goal with
    | |- obs _ (key_last ?k) ((handle_key ?j io ;; ?rest) ?s0) = _ =>
        destruct (Hskip j rest s0 eq_refl) as [-> <-]
    end;
    (rewrite obs_stop;
     [ apply Hown
     | intros _;
       repeat (apply silent_bind; [apply Hothers; reflexivity | intros _]);
       exact Htail
     | invisible_rest ]).
Qed.

Lemma kbd_track_app (c : ascii) (t u : trace) :
  forall d, kbd_track c d (t ++ u)
            = match kbd_track c d t with
              | Some d' => kbd_track c d' u
              | None => None
              end.
Proof.
  induction t as [|e t IH]; intros d; [reflexivity|].
  destruct e as [| | | | | | | | | | | | | |c'|c'|]; cbn [app kbd_track];
    try apply IH;
    destruct (Ascii.eqb c' c), d; try apply IH; reflexivity.
Qed.

Lemma kbd_track_filter (c : ascii) (t : trace) :
  forall d, kbd_track c d (filter (about_kbd c) t) = kbd_track c d t.
Proof.
  induction t as [|e t IH]; intros d; [reflexivity|].
  destruct e as [| | | | | | | | | | | | | |c'|c'|];
    cbn [filter about_kbd kbd_track]; try apply IH;
    destruct (Ascii.eqb c' c) eqn:E; cbn [kbd_track]; rewrite ?E;
    try apply IH; destruct d; try apply IH; reflexivity.
Qed.

Lemma off_encoder_about_kbd (c : ascii) : off_encoder (about_kbd c).
Proof.
  assert (Hoff : off_ring (about_kbd c)) by (split; intros; reflexivity).
  hush_encoder Hoff.
Qed.

(** X12. The keyboard reports of a key are balanced.  For each of the keys
    4, 5 and 6, bound to the characters d, e and f, take the character as
    down on the host exactly when the stored flag of the key says pressed
    at the start of a run of passes.  Then over any run, ended or hung,
    and whatever the other keys and the encoder do, [KBD_press] of the
    character is called only when the reports so far left it up and
    [KBD_release] only when they left it down: the host never gets two
    presses or two releases of a character in a row, and at the end of the
    run the character is down on the host exactly when the stored flag of
    the key says pressed. *)
Theorem keyboard_reports_are_balanced (k : key) (c : ascii)
  (ios : list poll) (s : state) :
  key_char k = Some c ->
  kbd_track c (key_last k s) (emitted (loop ios s))
  = Some (key_last k (final (loop ios s))).
Proof.
  intros Hc.
  apply (loop_tracks (kbd_track c) (key_last k)).
  - reflexivity.
  - intros x t u. apply kbd_track_app.
  - intros io s0. rewrite <- kbd_track_filter.
    assert (Hothers : forall j i, key_eqb j k = false ->
                                  silent (about_kbd c) (handle_key j i)).
    { intros j i Hj.
      destruct k; try discriminate Hc; injection Hc as <-;
        destruct j; try discriminate Hj; cbn [handle_key];
        unfold_handlers; unfold_callbacks; unfold_drivers; hush. }
    pose proof (loop_body_view_of_key (about_kbd c) k io s0 Hothers
                  (off_encoder_about_kbd c) eq_refl eq_refl) as V.
    unfold obs in V. injection V as -> ->.
    destruct k; try discriminate Hc; injection Hc as <-;
      destruct (PIN_read io _), (key_last _ s0); reflexivity.
Qed.

(** Key 5 pressed, held and released while key 4 goes down: the character
    e ends up, as the key. *)
Lemma keyboard_reports_are_balanced_witness :
  kbd_track "e"%char false
    (emitted (loop [with_pin PIN_KEY5 false idle;
                    with_pin PIN_KEY4 false (with_pin PIN_KEY5 false idle);
                    with_pin PIN_KEY4 false idle] init_state))
  = Some false.
Proof.
  exact (keyboard_reports_are_balanced Key5 "e"%char
           [with_pin PIN_KEY5 false idle;
            with_pin PIN_KEY4 false (with_pin PIN_KEY5 false idle);
            with_pin PIN_KEY4 false idle] init_state eq_refl).
Defined.

(* ------------------------------------------------------------------ *)
(** *** The colours on the ring *)

Lemma hues_ring_frame (p : Z) :
  hues (ring_frame p)
  = map (fun o => (p + 16 * Z.of_nat o) mod 192) (seq 0 12).
Proof. reflexivity. Qed.

Lemma rotl_ring_hues (p : Z) :
  0 <= p < 192 ->
  map (fun o => ((p + 16) mod 192 + 16 * Z.of_nat o) mod 192) (seq 0 12)
  = rotl (map (fun o => (p + 16 * Z.of_nat o) mod 192) (seq 0 12)).
Proof.
  intros Hp. cbn [seq map rotl app].
  repeat (f_equal; [rewrite Zplus_mod_idemp_l; f_equal; lia|]).
  f_equal. rewrite Zplus_mod_idemp_l.
  change (16 * Z.of_nat 11) with 176. change (16 * Z.of_nat 0) with 0.
  Z.div_mod_to_equations; lia.
Qed.

(** X13. Two detents move the colours by one pixel.  From every phase in
    0..191, the hues the ring is rendered with after two clockwise steps
    are the hues it had before, turned by one place: every ring pixel takes
    the hue of its upper neighbour and pixel 17 the hue pixel 6 had;
    two counter-clockwise steps turn them back. *)
Theorem two_detents_shift_ring_by_one_pixel (s : state) :
  phase_ok s ->
  hues (emitted (NEO_encoder_update (final (times 2 NEO_encoder_cw s))))
  = rotl (hues (emitted (NEO_encoder_update s)))
  /\ rotl (hues (emitted (NEO_encoder_update
                            (final (times 2 NEO_encoder_ccw s)))))
     = hues (emitted (NEO_encoder_update s)).
Proof.
  intros Hs. pose proof Hs as Hr. unfold phase_ok in Hr.
  destruct (times_cw 2 s Hs) as [Hcw _].
  destruct (times_ccw 2 s Hs) as [Hccw _].
  change (8 * Z.of_nat 2) with 16 in Hcw, Hccw.
  assert (Hok : forall n, phase_ok (set_neoencoder (n mod 192) s)).
  { intros n. unfold phase_ok. rewrite neoencoder_set.
    apply Z.mod_pos_bound. lia. }
  rewrite Hcw, Hccw, !NEO_encoder_update_emitted by (apply Hok || exact Hs).
  rewrite !neoencoder_set, !hues_ring_frame.
  split.
  - apply rotl_ring_hues, Hr.
  - rewrite <- rotl_ring_hues by (apply Z.mod_pos_bound; lia).
    apply map_ext. intros o. do 2 f_equal.
    Z.div_mod_to_equations; lia.
Qed.

Lemma two_detents_shift_ring_by_one_pixel_witness :
  hues (emitted (NEO_encoder_update
                   (final (times 2 NEO_encoder_cw
                             (set_neoencoder 8 init_state)))))
  = [24; 40; 56; 72; 88; 104; 120; 136; 152; 168; 184; 8].
Proof.
  assert (H : phase_ok (set_neoencoder 8 init_state)).
  { unfold phase_ok. cbn. lia. }
  exact (proj1 (two_detents_shift_ring_by_one_pixel
                  (set_neoencoder 8 init_state) H)).
Defined.

(* ------------------------------------------------------------------ *)
(** *** Edges of a key against its sampled levels *)

Lemma key_counts_app (k : key) (t u : trace) :
  key_counts k (t ++ u)
  = (let '(p1, h1, r1) := key_counts k t in
     let '(p2, h2, r2) := key_counts k u in
     (p1 + p2, h1 + h2, r1 + r2)%nat).
Proof. unfold key_counts. rewrite !count_fire_app. reflexivity. Qed.

Lemma key_counts_key_view (k : key) (raws : list bool) :
  forall last, key_counts k (key_view k raws last) = edge_counts last raws.
Proof.
  induction raws as [|raw raws IH]; intros last; [reflexivity|].
  cbn [key_view edge_counts]. rewrite key_counts_app, IH.
  destruct (edge_counts (negb raw) raws) as [[p h] r].
  destruct k, raw, last; reflexivity.
Qed.

(** X14. The edge detector of a key neither misses nor invents an edge of
    the sampled levels.  Over any run of passes whose encoder wait ends,
    for any levels on any pin, PRESSED of key [k] is entered once per
    sample where the key goes from up to down, RELEASED once per sample
    where it goes from down to up, and HELD once per sample where it is
    down and was down, counted from the stored flag at the start. *)
Theorem key_counts_are_edge_counts (k : key) (ios : list poll) (s : state) :
  forallb settles ios = true ->
  key_counts k (emitted (loop ios s))
  = edge_counts (key_last k s) (key_levels k ios).
Proof.
  intros Hset. rewrite <- key_counts_view, (loop_key_view k ios s Hset).
  apply key_counts_key_view.
Qed.

(** Key 1 bouncing: down, up, down, down, up over five passes. *)
Lemma key_counts_are_edge_counts_witness :
  key_counts Key1
    (emitted (loop [with_pin PIN_KEY1 false idle; idle;
                    with_pin PIN_KEY1 false idle;
                    with_pin PIN_KEY1 false idle; idle] init_state))
  = (2, 1, 2)%nat.
Proof.
  exact (key_counts_are_edge_counts Key1
           [with_pin PIN_KEY1 false idle; idle; with_pin PIN_KEY1 false idle;
            with_pin PIN_KEY1 false idle; idle] init_state eq_refl).
Defined.
